(** * THORChain protobuf encoder: a shallow embedding of
      [Working_Implementation.py] and the properties of its wire format.

    The Python class [THORChainProtobuf] builds a Cosmos-SDK transaction by
    hand: a base-128 varint encoder, an address decoder, and a chain of
    message composers (MsgSend, Any, TxBody, AuthInfo, TxRaw) that
    concatenate tag bytes, varint length prefixes and payloads.

    Layout of this file:
    - [Py]: the Python values and library calls the source uses
      (exceptions, [bytes], [str], [struct.pack('<B', _)], [str.encode],
      [bytes.fromhex], [base64.b64encode], [bytes.decode], [print]);
    - [THORChainProtobuf]: the methods of the class, one definition each;
    - [Wire]: reference decoders (varint, protobuf fields, base64) that the
      source does not contain and that the theorems decode with;
    - the theorems. *)

From Equations Require Import Equations.
From Stdlib Require Import ZArith List Lia Bool String Ascii.
From Stdlib Require Import Strings.Byte DecimalString.
Import ListNotations.
Local Open Scope Z_scope.

(* ===================================================================== *)
(** ** Python values and library primitives                               *)
(* ===================================================================== *)

Module Py.

(** The messages a [ValueError] carries in this program: the first is the
    one [bytes.fromhex] raises itself, the other three are the f-strings of
    [thor_address_to_bytes] (their interpolated details are dropped). *)
Inductive value_error_msg : Type :=
| NonHexadecimalNumber
| InvalidAddressPrefix
| InvalidAddressLength
| InvalidHexData.

Inductive exn : Type :=
| ValueError (msg : value_error_msg)
| StructError
| UnicodeEncodeError
| UnicodeDecodeError.

(** A call either returns a value or raises. *)
Inductive result (A : Type) : Type :=
| Ok (a : A)
| Raise (e : exn).
Arguments Ok {A} a.
Arguments Raise {A} e.

Definition bind {A B : Type} (m : result A) (k : A -> result B) : result B :=
  match m with
  | Ok a => k a
  | Raise e => Raise e
  end.

Notation "x <- m ;; k" := (bind m (fun x => k))
  (at level 61, m at next level, right associativity).

(** [bytes] is a sequence of octets, [str] a sequence of Unicode code
    points (a Python character is a code point in [0, 0x10FFFF]). *)
Definition bytes : Type := list byte.
Definition str : Type := list Z.

Definition len {A : Type} (l : list A) : Z := Z.of_nat (List.length l).

Definition byte_val (b : byte) : Z := Z.of_N (Byte.to_N b).

(** The octet with value [x mod 256]. *)
Definition byte_of_Z (x : Z) : byte :=
  match Byte.of_N (Z.to_N (x mod 256)) with
  | Some b => b
  | None => x00
  end.

(** An ASCII literal of the source as a [str]. *)
Definition py (s : string) : str :=
  map (fun a => Z.of_N (N_of_ascii a)) (list_ascii_of_string s).

(** [struct.pack('<B', x)]: one unsigned octet; [struct.error] outside
    [0, 255]. *)
Definition pack_B (x : Z) : result bytes :=
  if (0 <=? x) && (x <=? 255) then Ok [byte_of_Z x] else Raise StructError.

(** [s.startswith(prefix)]. *)
Fixpoint startswith (s prefix : str) : bool :=
  match prefix, s with
  | [], _ => true
  | p :: prefix', c :: s' => (c =? p) && startswith s' prefix'
  | _ :: _, [] => false
  end.

(** [s[n:]] for a non-negative literal [n]. *)
Definition slice_from {A : Type} (n : nat) (s : list A) : list A := skipn n s.

(** [str.encode('utf-8')], strict: surrogates (and anything that is not a
    code point) raise [UnicodeEncodeError]. *)
Definition is_surrogate (c : Z) : bool := (0xD800 <=? c) && (c <=? 0xDFFF).

Definition utf8_char (c : Z) : result bytes :=
  if c <? 0 then Raise UnicodeEncodeError
  else if c <? 0x80 then Ok [byte_of_Z c]
  else if c <? 0x800 then
    Ok [byte_of_Z (Z.lor 0xC0 (Z.shiftr c 6));
        byte_of_Z (Z.lor 0x80 (Z.land c 0x3F))]
  else if is_surrogate c then Raise UnicodeEncodeError
  else if c <? 0x10000 then
    Ok [byte_of_Z (Z.lor 0xE0 (Z.shiftr c 12));
        byte_of_Z (Z.lor 0x80 (Z.land (Z.shiftr c 6) 0x3F));
        byte_of_Z (Z.lor 0x80 (Z.land c 0x3F))]
  else if c <? 0x110000 then
    Ok [byte_of_Z (Z.lor 0xF0 (Z.shiftr c 18));
        byte_of_Z (Z.lor 0x80 (Z.land (Z.shiftr c 12) 0x3F));
        byte_of_Z (Z.lor 0x80 (Z.land (Z.shiftr c 6) 0x3F));
        byte_of_Z (Z.lor 0x80 (Z.land c 0x3F))]
  else Raise UnicodeEncodeError.

Fixpoint encode_utf8 (s : str) : result bytes :=
  match s with
  | [] => Ok []
  | c :: s' =>
      b <- utf8_char c ;;
      bs <- encode_utf8 s' ;;
      Ok (b ++ bs)
  end.

(** [bytes.decode('utf-8')], strict: well-formed sequences only (no
    overlong forms, no surrogates, nothing above U+10FFFF). *)
Definition is_continuation (b : Z) : bool := (0x80 <=? b) && (b <=? 0xBF).

Fixpoint decode_utf8 (bs : bytes) : result str :=
  match bs with
  | [] => Ok []
  | b0 :: r0 =>
      let x0 := byte_val b0 in
      if x0 <? 0x80 then
        s <- decode_utf8 r0 ;; Ok (x0 :: s)
      else if (0xC2 <=? x0) && (x0 <=? 0xDF) then
        match r0 with
        | b1 :: r1 =>
            let x1 := byte_val b1 in
            if is_continuation x1 then
              s <- decode_utf8 r1 ;;
              Ok (Z.lor (Z.shiftl (Z.land x0 0x1F) 6) (Z.land x1 0x3F) :: s)
            else Raise UnicodeDecodeError
        | _ => Raise UnicodeDecodeError
        end
      else if (0xE0 <=? x0) && (x0 <=? 0xEF) then
        match r0 with
        | b1 :: b2 :: r2 =>
            let x1 := byte_val b1 in
            let x2 := byte_val b2 in
            let c := Z.lor (Z.shiftl (Z.land x0 0x0F) 12)
                       (Z.lor (Z.shiftl (Z.land x1 0x3F) 6) (Z.land x2 0x3F)) in
            if is_continuation x1 && is_continuation x2
               && (0x800 <=? c) && negb (is_surrogate c) then
              s <- decode_utf8 r2 ;; Ok (c :: s)
            else Raise UnicodeDecodeError
        | _ => Raise UnicodeDecodeError
        end
      else if (0xF0 <=? x0) && (x0 <=? 0xF4) then
        match r0 with
        | b1 :: b2 :: b3 :: r3 =>
            let x1 := byte_val b1 in
            let x2 := byte_val b2 in
            let x3 := byte_val b3 in
            let c := Z.lor (Z.shiftl (Z.land x0 0x07) 18)
                       (Z.lor (Z.shiftl (Z.land x1 0x3F) 12)
                          (Z.lor (Z.shiftl (Z.land x2 0x3F) 6)
                             (Z.land x3 0x3F))) in
            if is_continuation x1 && is_continuation x2 && is_continuation x3
               && (0x10000 <=? c) && (c <? 0x110000) then
              s <- decode_utf8 r3 ;; Ok (c :: s)
            else Raise UnicodeDecodeError
        | _ => Raise UnicodeDecodeError
        end
      else Raise UnicodeDecodeError
  end.

(** [bytes.fromhex(s)]: two hexadecimal digits per octet, in either case;
    ASCII whitespace before a pair (and at the end) is skipped; anything
    else raises [ValueError]. *)
Definition is_ascii_space (c : Z) : bool :=
  (c =? 32) || ((9 <=? c) && (c <=? 13)).

Definition hex_digit_value (c : Z) : option Z :=
  if (48 <=? c) && (c <=? 57) then Some (c - 48)
  else if (97 <=? c) && (c <=? 102) then Some (c - 87)
  else if (65 <=? c) && (c <=? 70) then Some (c - 55)
  else None.

Fixpoint fromhex (s : str) : result bytes :=
  match s with
  | [] => Ok []
  | c :: rest =>
      if is_ascii_space c then fromhex rest
      else
        match hex_digit_value c, rest with
        | Some top, d :: rest' =>
            match hex_digit_value d with
            | Some bot =>
                bs <- fromhex rest' ;;
                Ok (byte_of_Z (Z.lor (Z.shiftl top 4) bot) :: bs)
            | None => Raise (ValueError NonHexadecimalNumber)
            end
        | _, _ => Raise (ValueError NonHexadecimalNumber)
        end
  end.

(** [base64.b64encode(s)]: the standard alphabet, [=] padding. *)
Definition b64_alphabet : bytes :=
  list_byte_of_string
    "ABCDEFGHIJKLMNOPQRSTUVWXYZabcdefghijklmnopqrstuvwxyz0123456789+/".

Definition b64_char (i : Z) : byte := nth (Z.to_nat i) b64_alphabet x00.

Definition b64_pad : byte := x3d.

Fixpoint b64encode (s : bytes) : bytes :=
  match s with
  | [] => []
  | [a] =>
      let n := Z.shiftl (byte_val a) 16 in
      [b64_char (Z.shiftr n 18); b64_char (Z.land (Z.shiftr n 12) 63);
       b64_pad; b64_pad]
  | [a; b] =>
      let n := Z.lor (Z.shiftl (byte_val a) 16) (Z.shiftl (byte_val b) 8) in
      [b64_char (Z.shiftr n 18); b64_char (Z.land (Z.shiftr n 12) 63);
       b64_char (Z.land (Z.shiftr n 6) 63); b64_pad]
  | a :: b :: c :: rest =>
      let n := Z.lor (Z.shiftl (byte_val a) 16)
                 (Z.lor (Z.shiftl (byte_val b) 8) (byte_val c)) in
      b64_char (Z.shiftr n 18) :: b64_char (Z.land (Z.shiftr n 12) 63)
        :: b64_char (Z.land (Z.shiftr n 6) 63) :: b64_char (Z.land n 63)
        :: b64encode rest
  end.

(** [str(n)] as an f-string interpolates it: decimal digits. *)
Definition format_int (n : Z) : str := py (NilZero.string_of_int (Z.to_int n)).

(** The part of the world a call can touch: the lines written to standard
    output. A computation with console output takes the world and gives it
    back together with its outcome. *)
Record world : Type := { stdout : list str }.

Definition IO (A : Type) : Type := world -> result A * world.

Definition io_ret {A : Type} (a : A) : IO A := fun w => (Ok a, w).

Definition io_bind {A B : Type} (m : IO A) (k : A -> IO B) : IO B :=
  fun w =>
    match m w with
    | (Ok a, w') => k a w'
    | (Raise e, w') => (Raise e, w')
    end.

Definition lift {A : Type} (r : result A) : IO A := fun w => (r, w).

Notation "x <~ m ;; k" := (io_bind m (fun x => k))
  (at level 61, m at next level, right associativity).
Notation "m ;;; k" := (io_bind m (fun _ => k))
  (at level 61, right associativity).

(** [print(line)] on a UTF-8 standard output with strict error handling
    (CPython's set-up on a UTF-8 locale): the line is written, or nothing is
    and [UnicodeEncodeError] is raised. A standard output with another error
    handler also writes lines that strict UTF-8 refuses; on a line that
    strict UTF-8 encodes every UTF-8 standard output behaves as here. *)
Definition print (line : str) : IO unit :=
  fun w =>
    match encode_utf8 line with
    | Ok _ => (Ok tt, {| stdout := stdout w ++ [line] |})
    | Raise e => (Raise e, w)
    end.

End Py.

(* ===================================================================== *)
(** ** The class [THORChainProtobuf]                                      *)
(* ===================================================================== *)

Module THORChainProtobuf.
Import Py.

(** The [while value > 127] loop of [encode_varint], with [result] the
    bytes accumulated so far. Each turn shifts [value] right by seven bits,
    so the position of its top bit decreases. *)
Equations? encode_varint_loop (result : bytes) (value : Z) : Py.result bytes
  by wf (Z.to_nat (Z.log2 value)) lt :=
encode_varint_loop result value with Z_gt_dec value 127 := {
  | left _ with pack_B (Z.lor (Z.land value 0x7F) 0x80) := {
      | Ok b := encode_varint_loop (result ++ b) (Z.shiftr value 7);
      | Raise e := Raise e };
  | right _ with pack_B (Z.land value 0x7F) := {
      | Ok b := Ok (result ++ b);
      | Raise e := Raise e } }.
Proof.
  assert (7 <= Z.log2 value) by (apply Z.log2_le_pow2; lia).
  rewrite Z.log2_shiftr by lia. lia.
Qed.

Definition encode_varint (value : Z) : result bytes :=
  encode_varint_loop [] value.

Definition thor_address_to_bytes (bech32_addr : str) : result bytes :=
  if negb (startswith bech32_addr (py "thor1")) then
    Raise (ValueError InvalidAddressPrefix)
  else
    let hex_data := slice_from 5 bech32_addr in
    if negb (len hex_data =? 40) then
      Raise (ValueError InvalidAddressLength)
    else
      match fromhex hex_data with
      | Ok account_id => Ok account_id
      | Raise (ValueError _) => Raise (ValueError InvalidHexData)
      | Raise e => Raise e
      end.

Definition create_thor_msgsend (from_addr to_addr : str) : result bytes :=
  from_bytes <- thor_address_to_bytes from_addr ;;
  to_bytes <- thor_address_to_bytes to_addr ;;
  tag1 <- pack_B 0x0a ;;
  len1 <- encode_varint (len from_bytes) ;;
  let from_field := tag1 ++ len1 ++ from_bytes in
  tag2 <- pack_B 0x12 ;;
  len2 <- encode_varint (len to_bytes) ;;
  let to_field := tag2 ++ len2 ++ to_bytes in
  Ok (from_field ++ to_field).

Definition create_any_message (type_url : str) (message_bytes : bytes)
  : result bytes :=
  type_url_bytes <- encode_utf8 type_url ;;
  tag1 <- pack_B 0x0a ;;
  len1 <- encode_varint (len type_url_bytes) ;;
  let type_url_field := tag1 ++ len1 ++ type_url_bytes in
  tag2 <- pack_B 0x12 ;;
  len2 <- encode_varint (len message_bytes) ;;
  let value_field := tag2 ++ len2 ++ message_bytes in
  Ok (type_url_field ++ value_field).

(** [for item in items: field = pack(tag) + varint(len(item)) + item;
    acc += field], the loop shared by [create_tx_body] (tag [0x0a]) and
    [create_tx_raw] (tag [0x1a]). *)
Fixpoint append_fields (tag : Z) (items : list bytes) (acc : bytes)
  : result bytes :=
  match items with
  | [] => Ok acc
  | item :: items' =>
      t <- pack_B tag ;;
      l <- encode_varint (len item) ;;
      let field := t ++ l ++ item in
      append_fields tag items' (acc ++ field)
  end.

Definition create_tx_body (messages : list bytes) (memo : str)
  : result bytes :=
  messages_field <- append_fields 0x0a messages [] ;;
  memo_bytes <- encode_utf8 memo ;;
  tag2 <- pack_B 0x12 ;;
  len2 <- encode_varint (len memo_bytes) ;;
  let memo_field := tag2 ++ len2 ++ memo_bytes in
  tag3 <- pack_B 0x18 ;;
  timeout <- encode_varint 0 ;;
  let timeout_field := tag3 ++ timeout in
  Ok (messages_field ++ memo_field ++ timeout_field).

Definition create_auth_info (sequence gas_limit : Z) : result bytes :=
  tag_seq <- pack_B 0x18 ;;
  seq <- encode_varint sequence ;;
  let signer_info := tag_seq ++ seq in
  tag_gas <- pack_B 0x10 ;;
  gas <- encode_varint gas_limit ;;
  let fee := tag_gas ++ gas in
  tag1 <- pack_B 0x0a ;;
  len1 <- encode_varint (len signer_info) ;;
  let signer_infos_field := tag1 ++ len1 ++ signer_info in
  tag2 <- pack_B 0x12 ;;
  len2 <- encode_varint (len fee) ;;
  let fee_field := tag2 ++ len2 ++ fee in
  Ok (signer_infos_field ++ fee_field).

(** The defaults of [create_auth_info(self, sequence=0, gas_limit=200000)],
    which is how [create_thor_transaction] calls it. *)
Definition default_sequence : Z := 0.
Definition default_gas_limit : Z := 200000.

Definition create_tx_raw (tx_body auth_info : bytes) (signatures : list bytes)
  : result bytes :=
  tag1 <- pack_B 0x0a ;;
  len1 <- encode_varint (len tx_body) ;;
  let body_field := tag1 ++ len1 ++ tx_body in
  tag2 <- pack_B 0x12 ;;
  len2 <- encode_varint (len auth_info) ;;
  let auth_field := tag2 ++ len2 ++ auth_info in
  signatures_field <- append_fields 0x1a signatures [] ;;
  Ok (body_field ++ auth_field ++ signatures_field).

(** The two pictographs the progress lines start with. *)
Definition wrench : str := [0x1F527].
Definition package : str := [0x1F4E6].

Definition create_thor_transaction (from_addr to_addr memo : str) : IO str :=
  print (wrench ++ py " Creating THORChain transaction") ;;;
  print (py "   From: " ++ from_addr) ;;;
  print (py "   To: " ++ to_addr) ;;;
  print (py "   Memo: " ++ memo) ;;;
  msg_send <~ lift (create_thor_msgsend from_addr to_addr) ;;
  print (package ++ py " MsgSend: " ++ format_int (len msg_send)
           ++ py " bytes") ;;;
  any_msg <~ lift (create_any_message (py "/types.MsgSend") msg_send) ;;
  print (package ++ py " Any message: " ++ format_int (len any_msg)
           ++ py " bytes") ;;;
  tx_body <~ lift (create_tx_body [any_msg] memo) ;;
  print (package ++ py " TxBody: " ++ format_int (len tx_body)
           ++ py " bytes") ;;;
  auth_info <~ lift (create_auth_info default_sequence default_gas_limit) ;;
  print (package ++ py " AuthInfo: " ++ format_int (len auth_info)
           ++ py " bytes") ;;;
  let signature := repeat x00 64 in
  print (package ++ py " Signature: " ++ format_int (len signature)
           ++ py " bytes") ;;;
  tx_raw <~ lift (create_tx_raw tx_body auth_info [signature]) ;;
  print (package ++ py " TxRaw: " ++ format_int (len tx_raw)
           ++ py " bytes") ;;;
  encoded_tx <~ lift (decode_utf8 (b64encode tx_raw)) ;;
  print (package ++ py " Base64 encoded: " ++ format_int (len encoded_tx)
           ++ py " chars") ;;;
  io_ret encoded_tx.

End THORChainProtobuf.

(* ===================================================================== *)
(** ** Reference decoders                                                 *)
(* ===================================================================== *)

(** The source only writes the wire format. To say what its output means,
    the theorems read it back with the decoders below, written after the
    protocol-buffers encoding rules and RFC 4648. *)

Module Wire.
Import Py.

(** The continuation bit of a varint octet. *)
Definition continuation (b : byte) : bool := Z.testbit (byte_val b) 7.

(** The number a sequence of octets denotes as a little-endian base-128
    numeral, seven value bits each. *)
Fixpoint varint_value (bs : bytes) : Z :=
  match bs with
  | [] => 0
  | b :: bs' => Z.land (byte_val b) 0x7F + 128 * varint_value bs'
  end.

(** Python's [int.bit_length]. *)
Definition bit_length (v : Z) : Z :=
  if v =? 0 then 0 else Z.log2 (Z.abs v) + 1.

(** [ceil(a / b)] for positive [b]. *)
Definition ceil_div (a b : Z) : Z := (a + b - 1) / b.

(** A varint reader: accumulates seven bits per octet until an octet
    without continuation bit; returns the value and the unread rest. *)
Fixpoint decode_varint_from (shift acc : Z) (bs : bytes) : option (Z * bytes) :=
  match bs with
  | [] => None
  | b :: rest =>
      let acc' := Z.lor acc (Z.shiftl (Z.land (byte_val b) 0x7F) shift) in
      if continuation b then decode_varint_from (shift + 7) acc' rest
      else Some (acc', rest)
  end.

Definition decode_varint (bs : bytes) : option (Z * bytes) :=
  decode_varint_from 0 0 bs.

(** The reader above puts no bound on what it reads. A [uint64] field is
    read by protocol-buffers parsers with a bound: at most ten octets, and a
    value that fits 64 bits. [decode_varint64] is that reader; it refuses
    what does not fit. *)
Fixpoint decode_varint64_from (octets_left : nat) (shift acc : Z) (bs : bytes)
  : option (Z * bytes) :=
  match octets_left with
  | O => None
  | S octets_left' =>
      match bs with
      | [] => None
      | b :: rest =>
          let acc' := Z.lor acc (Z.shiftl (Z.land (byte_val b) 0x7F) shift) in
          if continuation b
          then decode_varint64_from octets_left' (shift + 7) acc' rest
          else if acc' <? 2 ^ 64 then Some (acc', rest) else None
      end
  end.

Definition decode_varint64 (bs : bytes) : option (Z * bytes) :=
  decode_varint64_from 10 0 0 bs.

(** The payload of one field, by wire type. *)
Inductive wire_value : Type :=
| Varint (v : Z)                (* wire type 0 *)
| I64 (octets : bytes)          (* wire type 1 *)
| Len (payload : bytes)         (* wire type 2 *)
| I32 (octets : bytes).         (* wire type 5 *)

Definition field : Type := (Z * wire_value)%type.

Definition take (n : Z) (bs : bytes) : option (bytes * bytes) :=
  if (0 <=? n) && (n <=? len bs)
  then Some (firstn (Z.to_nat n) bs, skipn (Z.to_nat n) bs)
  else None.

Definition parse_field (bs : bytes) : option (field * bytes) :=
  match decode_varint bs with
  | None => None
  | Some (tag, r) =>
      let number := Z.shiftr tag 3 in
      let wire_type := Z.land tag 7 in
      if number <=? 0 then None
      else if wire_type =? 0 then
        match decode_varint r with
        | Some (v, r') => Some ((number, Varint v), r')
        | None => None
        end
      else if wire_type =? 1 then
        match take 8 r with
        | Some (p, r') => Some ((number, I64 p), r')
        | None => None
        end
      else if wire_type =? 2 then
        match decode_varint r with
        | Some (n, r') =>
            match take n r' with
            | Some (p, r'') => Some ((number, Len p), r'')
            | None => None
            end
        | None => None
        end
      else if wire_type =? 5 then
        match take 4 r with
        | Some (p, r') => Some ((number, I32 p), r')
        | None => None
        end
      else None
  end.

(** All the fields of a message, in stream order. Every field takes at
    least one octet, so [fuel] equal to the length of the input is enough;
    [parse_message] supplies it. *)
Fixpoint parse_fields (fuel : nat) (bs : bytes) : option (list field) :=
  match bs with
  | [] => Some []
  | _ :: _ =>
      match fuel with
      | O => None
      | S fuel' =>
          match parse_field bs with
          | Some (f, rest) =>
              match parse_fields fuel' rest with
              | Some fs => Some (f :: fs)
              | None => None
              end
          | None => None
          end
      end
  end.

Definition parse_message (bs : bytes) : option (list field) :=
  parse_fields (List.length bs) bs.

(** Base64 text back to octets. *)
Fixpoint index_of (b : byte) (l : bytes) (i : Z) : option Z :=
  match l with
  | [] => None
  | c :: l' => if Byte.eqb b c then Some i else index_of b l' (i + 1)
  end.

Definition b64_index (c : byte) : option Z := index_of c b64_alphabet 0.

Fixpoint b64decode (s : bytes) : option bytes :=
  match s with
  | [] => Some []
  | c0 :: c1 :: c2 :: c3 :: rest =>
      match b64_index c0, b64_index c1 with
      | Some i0, Some i1 =>
          let o0 := byte_of_Z (Z.lor (Z.shiftl i0 2) (Z.shiftr i1 4)) in
          if Byte.eqb c2 b64_pad then
            match rest with
            | [] => if Byte.eqb c3 b64_pad then Some [o0] else None
            | _ :: _ => None
            end
          else
            match b64_index c2 with
            | Some i2 =>
                let o1 := byte_of_Z (Z.lor (Z.shiftl i1 4) (Z.shiftr i2 2)) in
                if Byte.eqb c3 b64_pad then
                  match rest with
                  | [] => Some [o0; o1]
                  | _ :: _ => None
                  end
                else
                  match b64_index c3 with
                  | Some i3 =>
                      let o2 := byte_of_Z (Z.lor (Z.shiftl i2 6) i3) in
                      match b64decode rest with
                      | Some bs => Some (o0 :: o1 :: o2 :: bs)
                      | None => None
                      end
                  | None => None
                  end
            | None => None
            end
      | _, _ => None
      end
  | _ => None
  end.

(** A [str] of ASCII characters as the octets it is made of. *)
Definition ascii_bytes (s : str) : bytes := map byte_of_Z s.

End Wire.

(* ===================================================================== *)
(** ** The wire-field writers as the specification words them             *)
(* ===================================================================== *)

(** The source has no field-writer function: every composer spells out
    [struct.pack('<B', tag) + encode_varint(len(x)) + x]. The writers
    [WriteLengthDelimited] and [WriteVarintField] below follow the
    specification's wording (the tag is emitted as a varint) and are
    compared with the composers in the theorems. The rest of the module
    names what the statements need: the octets a call returns, a field as
    the composers lay it out, well-formed addresses, printable lines. *)

Module Spec.
Import Py THORChainProtobuf.

Definition WriteLengthDelimited (field_number : Z) (payload : bytes)
  : result bytes :=
  tag <- encode_varint (Z.lor (Z.shiftl field_number 3) 2) ;;
  l <- encode_varint (len payload) ;;
  Ok (tag ++ l ++ payload).

Definition WriteVarintField (field_number value : Z) : result bytes :=
  tag <- encode_varint (Z.lor (Z.shiftl field_number 3) 0) ;;
  v <- encode_varint value ;;
  Ok (tag ++ v).

(** A repeated field: one length-delimited entry per item, in order. *)
Fixpoint WriteRepeated (field_number : Z) (items : list bytes)
  : result bytes :=
  match items with
  | [] => Ok []
  | item :: items' =>
      f <- WriteLengthDelimited field_number item ;;
      fs <- WriteRepeated field_number items' ;;
      Ok (f ++ fs)
  end.

(** The octets [encode_varint] returns ([encode_varint_returns] below shows
    that it returns for every integer). *)
Definition varint (v : Z) : bytes :=
  match encode_varint v with
  | Ok bs => bs
  | Raise _ => []
  end.

(** The octets of an encodable [str]. *)
Definition utf8 (s : str) : bytes :=
  match encode_utf8 s with
  | Ok bs => bs
  | Raise _ => []
  end.

(** One length-delimited field with a one-octet tag, as every composer of
    the source lays it out. *)
Definition ld_field (tag : Z) (payload : bytes) : bytes :=
  byte_of_Z tag :: varint (len payload) ++ payload.

Definition is_hex_digit (c : Z) : bool :=
  match hex_digit_value c with
  | Some _ => true
  | None => false
  end.

(** An address the specification calls well formed: the prefix, then
    exactly forty hexadecimal digits. *)
Definition well_formed_address (a : str) : Prop :=
  startswith a (py "thor1") = true
  /\ len (slice_from 5 a) = 40
  /\ forallb is_hex_digit (slice_from 5 a) = true.

(** [s] can be encoded as UTF-8. *)
Definition encodable (s : str) : Prop := exists bs, encode_utf8 s = Ok bs.

(** The base64 text of the first end-to-end scenario (200 characters). *)
Definition scenario_1_text : str :=
  py "CkQKPgoOL3R5cGVzLk1zZ1NlbmQSLAoUo+udLL6lGJbDMgnyu1"
  ++ py "/5eaRCAaISFKPrnSy+pRiWwzIJ8rtf+XmkQgGiEgAYABIKCgIY"
  ++ py "ABIEEMCaDBpAAAAAAAAAAAAAAAAAAAAAAAAAAAAAAAAAAAAAAA"
  ++ py "AAAAAAAAAAAAAAAAAAAAAAAAAAAAAAAAAAAAAAAAAAAAAAAA==".

End Spec.

(* ===================================================================== *)
(** ** Hexadecimal text of octets                                         *)
(* ===================================================================== *)

(** The inverse direction of [bytes.fromhex], which the source never needs:
    two hexadecimal digits per octet, as [bytes.hex()] writes them (lower
    case) or in upper case. The theorems use it to build the address of a
    given account identifier. *)

Module Hex.
Import Py.

Definition hex_char (upper : bool) (n : Z) : Z :=
  if n <? 10 then 48 + n else if upper then 55 + n else 87 + n.

Definition hexlify (upper : bool) (bs : bytes) : str :=
  flat_map (fun b => [hex_char upper (Z.shiftr (byte_val b) 4);
                      hex_char upper (Z.land (byte_val b) 15)]) bs.

End Hex.

(* ===================================================================== *)
(** ** [broadcast_transaction]                                            *)
(* ===================================================================== *)

(** The method posts one JSON-RPC request with [requests.post] and turns
    whatever happens into a dictionary. The network is not part of the
    program: what it answers is a parameter of the section, and so are the
    JSON values ([Any] in the source's return type) and the exceptions that
    [except Exception] catches. The requests attempted are recorded next to
    the console output, so that the theorems can count them. *)

Module Rpc.
Import Py.

(** The keyword arguments of the one [requests.post] call: the URL, the
    members of [request_data], the headers and the timeout. *)
Record post_call : Type := {
  url : str;
  jsonrpc : str;
  id : Z;
  method : str;
  params : list (str * str);
  headers : list (str * str);
  timeout : Z
}.

Record net_world : Type := {
  console : world;
  posted : list post_call
}.

Definition default_rpc_url : str := py "https://stagenet-rpc.ninerealms.com".

(** The pictograph of the progress line. *)
Definition antenna : str := [0x1F4E1].

Section Network.

(** A JSON value, and the dictionary with the given string members. *)
Variable json : Type.
Variable dict_of : list (str * str) -> json.

(** An instance of [Exception], and [str(e)]. *)
Variable exception : Type.
Variable exception_str : exception -> str.

(** What [requests.post] gives back: [status_code], [text] and the outcome
    of [json()], which raises on a body that is not JSON. *)
Record response : Type := {
  status_code : Z;
  text : str;
  json_body : exception + json
}.

(** The answer of the network to a call, given the calls attempted before:
    an exception (connection error, timeout, ...) or a response. *)
Variable post : post_call -> list post_call -> exception + response.

Definition broadcast_transaction (encoded_tx rpc_url : str)
  : net_world -> result json * net_world :=
  fun nw =>
    match print (antenna ++ py " Broadcasting to " ++ rpc_url) (console nw) with
    | (Raise e, c) => (Raise e, {| console := c; posted := posted nw |})
    | (Ok _, c) =>
        let request :=
          {| url := rpc_url;
             jsonrpc := py "2.0";
             id := 1;
             method := py "broadcast_tx_sync";
             params := [(py "tx", encoded_tx)];
             headers :=
               [(py "X-Client-ID",
                 py "THORChain-Python-Protobuf-Breakthrough");
                (py "User-Agent",
                 py "THORChain-Python/1.0 (Working-Implementation)");
                (py "Content-Type", py "application/json")];
             timeout := 30 |} in
        let nw' := {| console := c; posted := posted nw ++ [request] |} in
        let request_failed e :=
          dict_of [(py "error", py "Request failed");
                   (py "message", exception_str e)] in
        match post request (posted nw) with
        | inl e => (Ok (request_failed e), nw')
        | inr r =>
            if status_code r =? 200 then
              match json_body r with
              | inr j => (Ok j, nw')
              | inl e => (Ok (request_failed e), nw')
              end
            else
              (Ok (dict_of [(py "error",
                             py "HTTP " ++ format_int (status_code r));
                            (py "message", text r)]), nw')
        end
    end.

End Network.

End Rpc.

(* ===================================================================== *)
(** ** Octets and [struct.pack]                                           *)
(* ===================================================================== *)

Import Py THORChainProtobuf Wire Spec.

Lemma byte_val_range (b : byte) : 0 <= byte_val b <= 255.
Proof.
  unfold byte_val. pose proof (Byte.to_N_bounded b). lia.
Qed.

Lemma byte_val_of_Z (x : Z) : 0 <= x <= 255 -> byte_val (byte_of_Z x) = x.
Proof.
  intros Hx. unfold byte_val, byte_of_Z.
  rewrite Z.mod_small by lia.
  destruct (Byte.of_N (Z.to_N x)) as [b|] eqn:E.
  - apply Byte.to_of_N in E. rewrite E. lia.
  - apply Byte.of_N_None_iff in E. lia.
Qed.

Lemma byte_of_Z_val (b : byte) : byte_of_Z (byte_val b) = b.
Proof.
  unfold byte_of_Z. pose proof (byte_val_range b) as Hb.
  rewrite Z.mod_small by lia. unfold byte_val.
  rewrite N2Z.id, Byte.of_to_N. reflexivity.
Qed.

Lemma byte_val_inj (a b : byte) : byte_val a = byte_val b -> a = b.
Proof.
  intros H. rewrite <- (byte_of_Z_val a), <- (byte_of_Z_val b), H.
  reflexivity.
Qed.

Lemma pack_B_in_range (x : Z) :
  0 <= x <= 255 -> pack_B x = Ok [byte_of_Z x].
Proof.
  intros Hx. unfold pack_B.
  destruct (0 <=? x) eqn:E1; destruct (x <=? 255) eqn:E2; simpl; try lia.
  reflexivity.
Qed.

Lemma len_app {A : Type} (l1 l2 : list A) : len (l1 ++ l2) = len l1 + len l2.
Proof. unfold len. rewrite length_app. lia. Qed.

Lemma len_cons {A : Type} (a : A) (l : list A) : len (a :: l) = 1 + len l.
Proof. unfold len. simpl List.length. lia. Qed.

Lemma len_nonneg {A : Type} (l : list A) : 0 <= len l.
Proof. unfold len. lia. Qed.

(* ===================================================================== *)
(** ** The low seven bits and the continuation bit                        *)
(* ===================================================================== *)

Lemma low7_mod (v : Z) : Z.land v 0x7F = v mod 128.
Proof. change 0x7F with (Z.ones 7). rewrite Z.land_ones by lia. reflexivity. Qed.

Lemma low7_range (v : Z) : 0 <= Z.land v 0x7F <= 127.
Proof. rewrite low7_mod. pose proof (Z.mod_pos_bound v 128). lia. Qed.

Lemma low7_with_flag (v : Z) :
  Z.lor (Z.land v 0x7F) 0x80 = Z.land v 0x7F + 128.
Proof.
  pose proof (Z.add_lor_land (Z.land v 0x7F) 0x80) as H.
  rewrite <- Z.land_assoc in H. change (Z.land 0x7F 0x80) with 0 in H.
  rewrite Z.land_0_r in H. lia.
Qed.

Lemma shiftr7_div (v : Z) : Z.shiftr v 7 = v / 128.
Proof. rewrite Z.shiftr_div_pow2 by lia. reflexivity. Qed.

Lemma low7_recompose (v : Z) :
  Z.lor (Z.land v 0x7F) (Z.shiftl (Z.shiftr v 7) 7) = v.
Proof.
  apply Z.bits_inj'. intros n Hn.
  rewrite Z.lor_spec, Z.land_spec. change 0x7F with (Z.ones 7).
  destruct (Z.ltb_spec n 7) as [Hlt|Hge].
  - rewrite Z.ones_spec_low, Z.shiftl_spec_low by lia.
    rewrite andb_true_r, orb_false_r. reflexivity.
  - rewrite Z.ones_spec_high, Z.shiftl_spec, Z.shiftr_spec by lia.
    rewrite andb_false_r. simpl. f_equal. lia.
Qed.

Lemma flag_set (v : Z) :
  continuation (byte_of_Z (Z.lor (Z.land v 0x7F) 0x80)) = true.
Proof.
  unfold continuation. rewrite byte_val_of_Z.
  - rewrite Z.lor_spec. change (Z.testbit 0x80 7) with true.
    apply orb_true_r.
  - rewrite low7_with_flag. pose proof (low7_range v). lia.
Qed.

Lemma flag_clear (v : Z) : continuation (byte_of_Z (Z.land v 0x7F)) = false.
Proof.
  unfold continuation. rewrite byte_val_of_Z.
  - rewrite Z.land_spec. change (Z.testbit 0x7F 7) with false.
    apply andb_false_r.
  - pose proof (low7_range v). lia.
Qed.

Lemma low7_of_flagged (v : Z) :
  Z.land (byte_val (byte_of_Z (Z.lor (Z.land v 0x7F) 0x80))) 0x7F
  = Z.land v 0x7F.
Proof.
  rewrite byte_val_of_Z.
  - rewrite Z.land_lor_distr_l, <- Z.land_assoc.
    change (Z.land 0x7F 0x7F) with 0x7F. change (Z.land 0x80 0x7F) with 0.
    apply Z.lor_0_r.
  - rewrite low7_with_flag. pose proof (low7_range v). lia.
Qed.

Lemma low7_of_last (v : Z) :
  Z.land (byte_val (byte_of_Z (Z.land v 0x7F))) 0x7F = Z.land v 0x7F.
Proof.
  rewrite byte_val_of_Z by (pose proof (low7_range v); lia).
  rewrite <- Z.land_assoc. reflexivity.
Qed.

(* ===================================================================== *)
(** ** [encode_varint]: one turn of the loop, and totality                *)
(* ===================================================================== *)

Lemma encode_varint_loop_exit (acc : bytes) (v : Z) :
  v <= 127 ->
  encode_varint_loop acc v = Ok (acc ++ [byte_of_Z (Z.land v 0x7F)]).
Proof.
  intros Hv. rewrite encode_varint_loop_equation_1.
  destruct (Z_gt_dec v 127) as [Hgt|Hle]; [lia|].
  simpl. rewrite pack_B_in_range by (pose proof (low7_range v); lia).
  reflexivity.
Qed.

Lemma encode_varint_loop_turn (acc : bytes) (v : Z) :
  127 < v ->
  encode_varint_loop acc v
  = encode_varint_loop (acc ++ [byte_of_Z (Z.lor (Z.land v 0x7F) 0x80)])
      (Z.shiftr v 7).
Proof.
  intros Hv. rewrite encode_varint_loop_equation_1.
  destruct (Z_gt_dec v 127) as [Hgt|Hle]; [|lia].
  simpl. rewrite pack_B_in_range.
  - reflexivity.
  - rewrite low7_with_flag. pose proof (low7_range v). lia.
Qed.

Lemma shiftr7_smaller (v : Z) : 127 < v -> 0 <= Z.shiftr v 7 < v.
Proof.
  intros Hv. rewrite shiftr7_div. split.
  - apply Z.div_pos; lia.
  - apply Z.div_lt; lia.
Qed.

(** The loop appends to what it was given. *)
Lemma encode_varint_loop_acc (v : Z) :
  forall acc, encode_varint_loop acc v = Ok (acc ++ varint v).
Proof.
  destruct (Z.le_gt_cases v 127) as [Hle|Hgt].
  - intros acc. unfold varint, encode_varint.
    rewrite (encode_varint_loop_exit acc v), (encode_varint_loop_exit [] v)
      by assumption.
    reflexivity.
  - assert (Hv : 0 <= v) by lia. clear Hgt. revert v Hv.
    apply (Z_lt_induction
             (fun v => forall acc, encode_varint_loop acc v = Ok (acc ++ varint v))).
    intros v IH acc.
    destruct (Z.le_gt_cases v 127) as [Hle|Hgt].
    + unfold varint, encode_varint.
      rewrite (encode_varint_loop_exit acc v), (encode_varint_loop_exit [] v)
        by assumption.
      reflexivity.
    + pose proof (shiftr7_smaller v Hgt) as Hs.
      unfold varint, encode_varint.
      rewrite (encode_varint_loop_turn acc v), (encode_varint_loop_turn [] v)
        by assumption.
      rewrite !IH by assumption. rewrite <- app_assoc. reflexivity.
Qed.

(** [encode_varint] returns for every integer, negative ones included. *)
Lemma encode_varint_returns (v : Z) : encode_varint v = Ok (varint v).
Proof. unfold encode_varint. apply encode_varint_loop_acc. Qed.

Lemma varint_small (v : Z) :
  v <= 127 -> varint v = [byte_of_Z (Z.land v 0x7F)].
Proof.
  intros Hv. unfold varint, encode_varint.
  rewrite encode_varint_loop_exit by assumption. reflexivity.
Qed.

Lemma varint_large (v : Z) :
  127 < v ->
  varint v = byte_of_Z (Z.lor (Z.land v 0x7F) 0x80) :: varint (Z.shiftr v 7).
Proof.
  intros Hv. unfold varint at 1. unfold encode_varint.
  rewrite encode_varint_loop_turn by assumption.
  rewrite encode_varint_loop_acc. reflexivity.
Qed.

(** Induction along the loop: a property of the encodings of all
    non-negative integers follows from the one-octet case and one turn. *)
Lemma varint_ind (P : Z -> bytes -> Prop) :
  (forall v, 0 <= v <= 127 -> P v [byte_of_Z (Z.land v 0x7F)]) ->
  (forall v, 127 < v -> P (Z.shiftr v 7) (varint (Z.shiftr v 7)) ->
             P v (byte_of_Z (Z.lor (Z.land v 0x7F) 0x80)
                    :: varint (Z.shiftr v 7))) ->
  forall v, 0 <= v -> P v (varint v).
Proof.
  intros Hsmall Hlarge v Hv. generalize Hv.
  apply (Z_lt_induction (fun v => 0 <= v -> P v (varint v))); [|exact Hv].
  clear v Hv. intros v IH Hv.
  destruct (Z.le_gt_cases v 127) as [Hle|Hgt].
  - rewrite varint_small by assumption. apply Hsmall. lia.
  - rewrite varint_large by assumption. apply Hlarge; [assumption|].
    pose proof (shiftr7_smaller v Hgt). apply IH; lia.
Qed.

(* ===================================================================== *)
(** ** The shape of a varint                                              *)
(* ===================================================================== *)

Lemma varint_nonempty (v : Z) : varint v <> [].
Proof.
  destruct (Z.le_gt_cases v 127) as [Hle|Hgt].
  - rewrite varint_small by assumption. discriminate.
  - rewrite varint_large by assumption. discriminate.
Qed.

Lemma bit_length_small (v : Z) : 0 <= v <= 127 -> 0 <= bit_length v <= 7.
Proof.
  intros Hv. unfold bit_length.
  destruct (Z.eqb_spec v 0) as [->|Hnz]; [lia|].
  rewrite Z.abs_eq by lia.
  assert (Z.log2 v < 7) by (apply Z.log2_lt_pow2; simpl; lia).
  pose proof (Z.log2_nonneg v). lia.
Qed.

Lemma bit_length_shiftr7 (v : Z) :
  127 < v -> bit_length (Z.shiftr v 7) = bit_length v - 7 /\ 8 <= bit_length v.
Proof.
  intros Hv. pose proof (shiftr7_smaller v Hv) as Hs.
  assert (Hlog : 7 <= Z.log2 v) by (apply Z.log2_le_pow2; simpl; lia).
  assert (Hpos : 0 < Z.shiftr v 7).
  { rewrite shiftr7_div. apply Z.div_str_pos. lia. }
  unfold bit_length.
  destruct (Z.eqb_spec (Z.shiftr v 7) 0) as [E|_]; [lia|].
  destruct (Z.eqb_spec v 0) as [E|_]; [lia|].
  rewrite !Z.abs_eq by lia. rewrite Z.log2_shiftr by lia. lia.
Qed.

Lemma varint_length (v : Z) :
  0 <= v -> len (varint v) = Z.max 1 (ceil_div (bit_length v) 7).
Proof.
  revert v.
  apply (varint_ind (fun v bs => len bs = Z.max 1 (ceil_div (bit_length v) 7))).
  - intros v Hv. pose proof (bit_length_small v Hv) as Hb.
    unfold ceil_div. change (len [byte_of_Z (Z.land v 0x7F)]) with 1.
    assert ((bit_length v + 7 - 1) / 7 < 2)
      by (apply Z.div_lt_upper_bound; lia).
    lia.
  - intros v Hv IH. destruct (bit_length_shiftr7 v Hv) as [Hb Hb8].
    rewrite len_cons, IH, Hb. unfold ceil_div.
    replace (bit_length v + 7 - 1) with ((bit_length v - 7 + 7 - 1) + 1 * 7)
      by lia.
    rewrite Z.div_add by lia.
    assert (1 <= (bit_length v - 7 + 7 - 1) / 7)
      by (apply Z.div_le_lower_bound; lia).
    lia.
Qed.

Lemma varint_flags (v : Z) :
  0 <= v ->
  Forall (fun b => continuation b = true) (removelast (varint v))
  /\ continuation (last (varint v) x00) = false.
Proof.
  revert v.
  apply (varint_ind (fun _ bs =>
           Forall (fun b => continuation b = true) (removelast bs)
           /\ continuation (last bs x00) = false)).
  - intros v _. simpl. split; [constructor|apply flag_clear].
  - intros v Hv [IH1 IH2].
    pose proof (varint_nonempty (Z.shiftr v 7)) as Hne.
    destruct (varint (Z.shiftr v 7)) as [|b bs] eqn:E; [congruence|].
    split.
    + change (removelast (?a :: b :: bs)) with (a :: removelast (b :: bs)).
      constructor; [apply flag_set|assumption].
    + change (last (?a :: b :: bs) x00) with (last (b :: bs) x00).
      assumption.
Qed.

Lemma varint_value_cons (b : byte) (bs : bytes) :
  varint_value (b :: bs) = Z.land (byte_val b) 0x7F + 128 * varint_value bs.
Proof. reflexivity. Qed.

Lemma varint_value_varint (v : Z) : 0 <= v -> varint_value (varint v) = v.
Proof.
  revert v. apply (varint_ind (fun v bs => varint_value bs = v)).
  - intros v Hv. rewrite varint_value_cons, low7_of_last, low7_mod.
    rewrite Z.mod_small by lia. simpl. lia.
  - intros v Hv IH. rewrite varint_value_cons, IH, low7_of_flagged.
    rewrite low7_mod, shiftr7_div.
    pose proof (Z.div_mod v 128). lia.
Qed.

Lemma varint_one_octet (v : Z) : len (varint v) = 1 <-> v <= 127.
Proof.
  split.
  - intros H. destruct (Z.le_gt_cases v 127) as [Hle|Hgt]; [assumption|].
    rewrite varint_large, len_cons in H by assumption.
    pose proof (varint_nonempty (Z.shiftr v 7)) as Hne.
    destruct (varint (Z.shiftr v 7)) as [|b bs]; [congruence|].
    rewrite len_cons in H. pose proof (len_nonneg bs). lia.
  - intros H. rewrite varint_small by assumption. reflexivity.
Qed.

(** C1. For every integer [v >= 0], [encode_varint v] returns the
    canonical base-128 varint of [v]: its length is
    [ceil(bit_length(v) / 7)], at least one octet; every octet but the last
    has the continuation bit set and the last has it clear; the octets
    denote [v]; and the encoding is one octet exactly when [v <= 127]. *)
Theorem encode_varint_canonical (v : Z) (Hv : 0 <= v) :
  exists bs,
    encode_varint v = Ok bs
    /\ len bs = Z.max 1 (ceil_div (bit_length v) 7)
    /\ Forall (fun b => continuation b = true) (removelast bs)
    /\ continuation (last bs x00) = false
    /\ varint_value bs = v
    /\ (len bs = 1 <-> v <= 127).
Proof.
  exists (varint v).
  split; [apply encode_varint_returns|].
  split; [apply varint_length; assumption|].
  destruct (varint_flags v Hv) as [Hinit Hlast].
  split; [assumption|]. split; [assumption|].
  split; [apply varint_value_varint; assumption|apply varint_one_octet].
Qed.

Lemma encode_varint_canonical_witness :
  0 <= 200000 /\
  exists bs,
    encode_varint 200000 = Ok bs
    /\ len bs = Z.max 1 (ceil_div (bit_length 200000) 7)
    /\ Forall (fun b => continuation b = true) (removelast bs)
    /\ continuation (last bs x00) = false
    /\ varint_value bs = 200000
    /\ (len bs = 1 <-> 200000 <= 127).
Proof.
  split; [lia|]. apply (encode_varint_canonical 200000). lia.
Defined.

(* ===================================================================== *)
(** ** Reading a varint back                                              *)
(* ===================================================================== *)

Lemma decode_varint_from_varint (v : Z) :
  0 <= v ->
  forall shift acc rest,
    0 <= shift ->
    decode_varint_from shift acc (varint v ++ rest)
    = Some (Z.lor acc (Z.shiftl v shift), rest).
Proof.
  revert v.
  apply (varint_ind (fun v bs =>
           forall shift acc rest, 0 <= shift ->
             decode_varint_from shift acc (bs ++ rest)
             = Some (Z.lor acc (Z.shiftl v shift), rest))).
  - intros v Hv shift acc rest Hs.
    cbn [app decode_varint_from]. rewrite flag_clear, low7_of_last.
    rewrite low7_mod, Z.mod_small by lia. reflexivity.
  - intros v Hv IH shift acc rest Hs.
    cbn [app decode_varint_from]. rewrite flag_set, low7_of_flagged.
    rewrite IH by lia. rewrite <- Z.lor_assoc.
    replace (shift + 7) with (7 + shift) by lia.
    rewrite <- Z.shiftl_shiftl by lia. rewrite <- Z.shiftl_lor.
    rewrite low7_recompose. reflexivity.
Qed.

Lemma decode_varint_varint (v : Z) (rest : bytes) :
  0 <= v -> decode_varint (varint v ++ rest) = Some (v, rest).
Proof.
  intros Hv. unfold decode_varint.
  rewrite decode_varint_from_varint by lia.
  rewrite Z.shiftl_0_r, Z.lor_0_l. reflexivity.
Qed.

(** C2. For every integer [v] in [0, 2^63), the reference varint reader
    applied to what [encode_varint v] returns yields [v] and leaves nothing
    unread (and, when more octets follow, leaves exactly those). *)
Theorem encode_varint_round_trip (v : Z) (Hv : 0 <= v < 2 ^ 63) :
  exists bs,
    encode_varint v = Ok bs
    /\ decode_varint bs = Some (v, [])
    /\ forall rest, decode_varint (bs ++ rest) = Some (v, rest).
Proof.
  exists (varint v). split; [apply encode_varint_returns|]. split.
  - rewrite <- (app_nil_r (varint v)). apply decode_varint_varint. lia.
  - intros rest. apply decode_varint_varint. lia.
Qed.

(** The two boundary gas limits of the specification, [0] and [2^32 - 1]. *)
Lemma encode_varint_round_trip_witness :
  (0 <= 0 < 2 ^ 63
   /\ exists bs,
        encode_varint 0 = Ok bs
        /\ decode_varint bs = Some (0, [])
        /\ forall rest, decode_varint (bs ++ rest) = Some (0, rest))
  /\ (0 <= 2 ^ 32 - 1 < 2 ^ 63
      /\ exists bs,
           encode_varint (2 ^ 32 - 1) = Ok bs
           /\ decode_varint bs = Some (2 ^ 32 - 1, [])
           /\ forall rest,
                decode_varint (bs ++ rest) = Some (2 ^ 32 - 1, rest)).
Proof.
  split; (split; [lia|]).
  - apply (encode_varint_round_trip 0). lia.
  - apply (encode_varint_round_trip (2 ^ 32 - 1)). lia.
Defined.

Example encode_varint_gas_limit_0 : encode_varint 0 = Ok [x00].
Proof. reflexivity. Qed.

Example encode_varint_gas_limit_max :
  encode_varint (2 ^ 32 - 1) = Ok [xff; xff; xff; xff; x0f].
Proof. reflexivity. Qed.

Example encode_varint_gas_limit_default :
  encode_varint 200000 = Ok [xc0; x9a; x0c].
Proof. reflexivity. Qed.

(* ===================================================================== *)
(** ** Negative input                                                     *)
(* ===================================================================== *)

(** C10. For every negative integer [encode_varint] returns, without
    raising, the single octet [value & 0x7F]; read back, that octet gives a
    number in [0, 127], never the input. *)
Theorem encode_varint_negative (v : Z) (Hv : v < 0) :
  encode_varint v = Ok [byte_of_Z (Z.land v 0x7F)]
  /\ byte_val (byte_of_Z (Z.land v 0x7F)) = Z.land v 0x7F
  /\ decode_varint [byte_of_Z (Z.land v 0x7F)] = Some (Z.land v 0x7F, [])
  /\ Z.land v 0x7F <> v.
Proof.
  pose proof (low7_range v) as Hr.
  split.
  - rewrite encode_varint_returns, varint_small by lia. reflexivity.
  - split; [apply byte_val_of_Z; lia|]. split; [|lia].
    unfold decode_varint. cbn [decode_varint_from].
    rewrite flag_clear, low7_of_last, Z.shiftl_0_r, Z.lor_0_l. reflexivity.
Qed.

Lemma encode_varint_negative_witness :
  -5 < 0
  /\ encode_varint (-5) = Ok [byte_of_Z (Z.land (-5) 0x7F)]
  /\ byte_val (byte_of_Z (Z.land (-5) 0x7F)) = Z.land (-5) 0x7F
  /\ decode_varint [byte_of_Z (Z.land (-5) 0x7F)]
     = Some (Z.land (-5) 0x7F, [])
  /\ Z.land (-5) 0x7F <> -5.
Proof.
  split; [lia|]. apply (encode_varint_negative (-5)). lia.
Defined.

Example encode_varint_minus_5 : encode_varint (-5) = Ok [x7b].
Proof. reflexivity. Qed.

(* ===================================================================== *)
(** ** The composers, field by field                                      *)
(* ===================================================================== *)

(** Runs the straight-line part of a composer: every [encode_varint] and
    every in-range [struct.pack] returns. *)
Ltac run_composer :=
  repeat first
    [ rewrite encode_varint_returns
    | rewrite pack_B_in_range by lia
    | progress cbn [bind] ].

Lemma varint_one_octet_value (t : Z) :
  0 <= t <= 127 -> varint t = [byte_of_Z t].
Proof.
  intros Ht. rewrite varint_small by lia.
  rewrite low7_mod, Z.mod_small by lia. reflexivity.
Qed.

Lemma length_delimited_tag (f : Z) :
  1 <= f <= 15 ->
  10 <= Z.lor (Z.shiftl f 3) 2 <= 122
  /\ Z.shiftr (Z.lor (Z.shiftl f 3) 2) 3 = f
  /\ Z.land (Z.lor (Z.shiftl f 3) 2) 7 = 2.
Proof.
  intros Hf.
  assert (H : f = 1 \/ f = 2 \/ f = 3 \/ f = 4 \/ f = 5 \/ f = 6 \/ f = 7
              \/ f = 8 \/ f = 9 \/ f = 10 \/ f = 11 \/ f = 12 \/ f = 13
              \/ f = 14 \/ f = 15) by lia.
  repeat (destruct H as [->|H]); try subst f; simpl; repeat split; lia.
Qed.

Lemma append_fields_returns (tag : Z) (items : list bytes) :
  0 <= tag <= 255 ->
  forall acc,
    append_fields tag items acc
    = Ok (acc ++ List.concat (map (ld_field tag) items)).
Proof.
  intros Ht. induction items as [|item items IH]; intros acc.
  - simpl. rewrite app_nil_r. reflexivity.
  - cbn [append_fields]. run_composer. rewrite IH.
    cbn [map List.concat]. unfold ld_field. rewrite <- app_assoc. reflexivity.
Qed.

Lemma WriteLengthDelimited_returns (f : Z) (p : bytes) :
  1 <= f <= 15 ->
  WriteLengthDelimited f p = Ok (ld_field (Z.lor (Z.shiftl f 3) 2) p).
Proof.
  intros Hf. destruct (length_delimited_tag f Hf) as [Ht _].
  unfold WriteLengthDelimited. run_composer.
  rewrite varint_one_octet_value by lia. reflexivity.
Qed.

Lemma WriteRepeated_returns (f : Z) (items : list bytes) :
  1 <= f <= 15 ->
  WriteRepeated f items
  = Ok (List.concat (map (ld_field (Z.lor (Z.shiftl f 3) 2)) items)).
Proof.
  intros Hf. induction items as [|item items IH].
  - reflexivity.
  - cbn [WriteRepeated]. rewrite WriteLengthDelimited_returns, IH by lia.
    reflexivity.
Qed.

Lemma WriteVarintField_returns (f v : Z) :
  1 <= f <= 15 ->
  WriteVarintField f v = Ok (byte_of_Z (Z.shiftl f 3) :: varint v).
Proof.
  intros Hf. unfold WriteVarintField. run_composer.
  rewrite Z.lor_0_r. rewrite Z.shiftl_mul_pow2 by lia.
  rewrite varint_one_octet_value by (simpl; lia). reflexivity.
Qed.

Lemma create_any_message_returns (type_url : str) (u m : bytes) :
  encode_utf8 type_url = Ok u ->
  create_any_message type_url m = Ok (ld_field 0x0a u ++ ld_field 0x12 m).
Proof.
  intros Hu. unfold create_any_message. rewrite Hu. run_composer.
  reflexivity.
Qed.

Lemma create_thor_msgsend_returns (from_addr to_addr : str) (fb tb : bytes) :
  thor_address_to_bytes from_addr = Ok fb ->
  thor_address_to_bytes to_addr = Ok tb ->
  create_thor_msgsend from_addr to_addr
  = Ok (ld_field 0x0a fb ++ ld_field 0x12 tb).
Proof.
  intros Hf Ht. unfold create_thor_msgsend. rewrite Hf, Ht. run_composer.
  reflexivity.
Qed.

Lemma create_tx_body_returns (messages : list bytes) (memo : str)
  (memo_bytes : bytes) :
  encode_utf8 memo = Ok memo_bytes ->
  create_tx_body messages memo
  = Ok (List.concat (map (ld_field 0x0a) messages)
          ++ ld_field 0x12 memo_bytes ++ [x18; x00]).
Proof.
  intros Hm. unfold create_tx_body.
  rewrite append_fields_returns by lia. cbn [bind]. rewrite Hm.
  run_composer. reflexivity.
Qed.

Lemma create_auth_info_returns (sequence gas_limit : Z) :
  create_auth_info sequence gas_limit
  = Ok (ld_field 0x0a (x18 :: varint sequence)
          ++ ld_field 0x12 (x10 :: varint gas_limit)).
Proof.
  unfold create_auth_info. run_composer. reflexivity.
Qed.

Lemma create_tx_raw_returns (tx_body auth_info : bytes)
  (signatures : list bytes) :
  create_tx_raw tx_body auth_info signatures
  = Ok (ld_field 0x0a tx_body ++ ld_field 0x12 auth_info
          ++ List.concat (map (ld_field 0x1a) signatures)).
Proof.
  unfold create_tx_raw. run_composer.
  rewrite append_fields_returns by lia. cbn [bind]. reflexivity.
Qed.

(** The composers are the specification's writers, inlined. *)
Lemma create_any_message_writes (type_url : str) (m : bytes) :
  create_any_message type_url m
  = (u <- encode_utf8 type_url ;;
     f1 <- WriteLengthDelimited 1 u ;;
     f2 <- WriteLengthDelimited 2 m ;;
     Ok (f1 ++ f2)).
Proof.
  destruct (encode_utf8 type_url) as [u|e] eqn:Hu.
  - rewrite (create_any_message_returns _ _ _ Hu). cbn [bind].
    rewrite !WriteLengthDelimited_returns by lia. reflexivity.
  - unfold create_any_message. rewrite Hu. reflexivity.
Qed.

Lemma create_thor_msgsend_writes (from_addr to_addr : str) :
  create_thor_msgsend from_addr to_addr
  = (fb <- thor_address_to_bytes from_addr ;;
     tb <- thor_address_to_bytes to_addr ;;
     f1 <- WriteLengthDelimited 1 fb ;;
     f2 <- WriteLengthDelimited 2 tb ;;
     Ok (f1 ++ f2)).
Proof.
  destruct (thor_address_to_bytes from_addr) as [fb|e] eqn:Hf.
  - destruct (thor_address_to_bytes to_addr) as [tb|e] eqn:Ht.
    + rewrite (create_thor_msgsend_returns _ _ _ _ Hf Ht). cbn [bind].
      rewrite !WriteLengthDelimited_returns by lia. reflexivity.
    + unfold create_thor_msgsend. rewrite Hf, Ht. reflexivity.
  - unfold create_thor_msgsend. rewrite Hf. reflexivity.
Qed.

Lemma create_tx_body_writes (messages : list bytes) (memo : str) :
  create_tx_body messages memo
  = (f1 <- WriteRepeated 1 messages ;;
     memo_bytes <- encode_utf8 memo ;;
     f2 <- WriteLengthDelimited 2 memo_bytes ;;
     f3 <- WriteVarintField 3 0 ;;
     Ok (f1 ++ f2 ++ f3)).
Proof.
  rewrite WriteRepeated_returns by lia. cbn [bind].
  destruct (encode_utf8 memo) as [mb|e] eqn:Hm.
  - rewrite (create_tx_body_returns _ _ _ Hm). cbn [bind].
    rewrite WriteLengthDelimited_returns, WriteVarintField_returns by lia.
    reflexivity.
  - unfold create_tx_body. rewrite append_fields_returns by lia.
    cbn [bind]. rewrite Hm. reflexivity.
Qed.

Lemma create_auth_info_writes (sequence gas_limit : Z) :
  create_auth_info sequence gas_limit
  = (signer_info <- WriteVarintField 3 sequence ;;
     fee <- WriteVarintField 2 gas_limit ;;
     f1 <- WriteLengthDelimited 1 signer_info ;;
     f2 <- WriteLengthDelimited 2 fee ;;
     Ok (f1 ++ f2)).
Proof.
  rewrite create_auth_info_returns.
  rewrite !WriteVarintField_returns by lia. cbn [bind].
  rewrite !WriteLengthDelimited_returns by lia. reflexivity.
Qed.

Lemma create_tx_raw_writes (tx_body auth_info : bytes)
  (signatures : list bytes) :
  create_tx_raw tx_body auth_info signatures
  = (f1 <- WriteLengthDelimited 1 tx_body ;;
     f2 <- WriteLengthDelimited 2 auth_info ;;
     f3 <- WriteRepeated 3 signatures ;;
     Ok (f1 ++ f2 ++ f3)).
Proof.
  rewrite create_tx_raw_returns.
  rewrite !WriteLengthDelimited_returns, WriteRepeated_returns by lia.
  reflexivity.
Qed.

(** C3. For every payload [p] and field number [f] in [1, 15], the
    length-delimited field is the one-octet tag [(f << 3) | 2], the varint
    of [len p], then [p]; its length is [1 + len (varint (len p)) + len p];
    and the composers of the source emit exactly such fields (any message
    and send message: fields 1 and 2; transaction body: repeated field 1 and
    field 2; auth info: fields 1 and 2; raw transaction: fields 1, 2 and
    repeated field 3). *)
Theorem length_delimited_field_layout (p : bytes) (f : Z)
  (Hf : 1 <= f <= 15) :
  let tag := Z.lor (Z.shiftl f 3) 2 in
  exists l field,
    encode_varint (len p) = Ok l
    /\ WriteLengthDelimited f p = Ok field
    /\ field = byte_of_Z tag :: l ++ p
    /\ byte_val (byte_of_Z tag) = tag
    /\ len field = 1 + len l + len p
    /\ (forall type_url m,
          create_any_message type_url m
          = (u <- encode_utf8 type_url ;;
             f1 <- WriteLengthDelimited 1 u ;;
             f2 <- WriteLengthDelimited 2 m ;;
             Ok (f1 ++ f2)))
    /\ (forall from_addr to_addr,
          create_thor_msgsend from_addr to_addr
          = (fb <- thor_address_to_bytes from_addr ;;
             tb <- thor_address_to_bytes to_addr ;;
             f1 <- WriteLengthDelimited 1 fb ;;
             f2 <- WriteLengthDelimited 2 tb ;;
             Ok (f1 ++ f2)))
    /\ (forall messages memo,
          create_tx_body messages memo
          = (f1 <- WriteRepeated 1 messages ;;
             memo_bytes <- encode_utf8 memo ;;
             f2 <- WriteLengthDelimited 2 memo_bytes ;;
             f3 <- WriteVarintField 3 0 ;;
             Ok (f1 ++ f2 ++ f3)))
    /\ (forall sequence gas_limit,
          create_auth_info sequence gas_limit
          = (signer_info <- WriteVarintField 3 sequence ;;
             fee <- WriteVarintField 2 gas_limit ;;
             f1 <- WriteLengthDelimited 1 signer_info ;;
             f2 <- WriteLengthDelimited 2 fee ;;
             Ok (f1 ++ f2)))
    /\ (forall tx_body auth_info signatures,
          create_tx_raw tx_body auth_info signatures
          = (f1 <- WriteLengthDelimited 1 tx_body ;;
             f2 <- WriteLengthDelimited 2 auth_info ;;
             f3 <- WriteRepeated 3 signatures ;;
             Ok (f1 ++ f2 ++ f3))).
Proof.
  intros tag. destruct (length_delimited_tag f Hf) as [Ht _].
  exists (varint (len p)), (ld_field tag p).
  split; [apply encode_varint_returns|].
  split; [apply WriteLengthDelimited_returns; assumption|].
  split; [reflexivity|].
  split; [apply byte_val_of_Z; unfold tag; lia|].
  split; [unfold ld_field; rewrite len_cons, len_app; lia|].
  split; [exact create_any_message_writes|].
  split; [exact create_thor_msgsend_writes|].
  split; [exact create_tx_body_writes|].
  split; [exact create_auth_info_writes|exact create_tx_raw_writes].
Qed.

Lemma length_delimited_field_layout_witness :
  1 <= 3 <= 15
  /\ WriteLengthDelimited 3 [x01; x02] = Ok [x1a; x02; x01; x02].
Proof.
  assert (H : 1 <= 3 <= 15) by lia.
  split; [exact H|].
  destruct (length_delimited_field_layout [x01; x02] 3 H)
    as (l & field & Hl & Hw & Hfield & _).
  rewrite Hw, Hfield. vm_compute in Hl. injection Hl as <-. reflexivity.
Defined.

(* ===================================================================== *)
(** ** Parsing what the composers emit                                    *)
(* ===================================================================== *)

Lemma decode_varint_one_octet (t : Z) (rest : bytes) :
  0 <= t <= 127 -> decode_varint (byte_of_Z t :: rest) = Some (t, rest).
Proof.
  intros Ht. change (byte_of_Z t :: rest) with ([byte_of_Z t] ++ rest).
  rewrite <- varint_one_octet_value by assumption.
  apply decode_varint_varint. lia.
Qed.

Lemma take_app (p rest : bytes) : take (len p) (p ++ rest) = Some (p, rest).
Proof.
  unfold take. rewrite len_app.
  pose proof (len_nonneg p). pose proof (len_nonneg rest).
  destruct (Z.leb_spec 0 (len p)); [|lia].
  destruct (Z.leb_spec (len p) (len p + len rest)); [|lia].
  cbn [andb]. unfold len. rewrite Nat2Z.id.
  rewrite firstn_app, skipn_app, Nat.sub_diag, firstn_all, skipn_all.
  cbn [firstn skipn]. rewrite app_nil_r. reflexivity.
Qed.

Lemma parse_field_length_delimited (tag : Z) (p rest : bytes) :
  0 <= tag <= 127 -> Z.land tag 7 = 2 -> 0 < Z.shiftr tag 3 ->
  parse_field (ld_field tag p ++ rest) = Some ((Z.shiftr tag 3, Len p), rest).
Proof.
  intros Ht Hw Hn. unfold parse_field, ld_field.
  rewrite <- app_comm_cons, decode_varint_one_octet by assumption.
  rewrite Hw. destruct (Z.leb_spec (Z.shiftr tag 3) 0); [lia|].
  cbn [Z.eqb]. rewrite <- app_assoc.
  rewrite decode_varint_varint by apply len_nonneg.
  rewrite take_app. reflexivity.
Qed.

Lemma parse_field_varint (tag v : Z) (rest : bytes) :
  0 <= tag <= 127 -> Z.land tag 7 = 0 -> 0 < Z.shiftr tag 3 -> 0 <= v ->
  parse_field (byte_of_Z tag :: varint v ++ rest)
  = Some ((Z.shiftr tag 3, Varint v), rest).
Proof.
  intros Ht Hw Hn Hv. unfold parse_field.
  rewrite decode_varint_one_octet by assumption.
  rewrite Hw. destruct (Z.leb_spec (Z.shiftr tag 3) 0); [lia|].
  cbn [Z.eqb]. rewrite decode_varint_varint by assumption. reflexivity.
Qed.

Lemma decode_varint_from_consumes (bs : bytes) :
  forall shift acc v rest,
    decode_varint_from shift acc bs = Some (v, rest) ->
    (List.length rest < List.length bs)%nat.
Proof.
  induction bs as [|b bs IH]; intros shift acc v rest H.
  - discriminate.
  - cbn [decode_varint_from] in H. destruct (continuation b).
    + apply IH in H. simpl. lia.
    + injection H as _ <-. simpl. lia.
Qed.

Lemma take_consumes (n : Z) (bs p rest : bytes) :
  take n bs = Some (p, rest) -> (List.length rest <= List.length bs)%nat.
Proof.
  unfold take. destruct ((0 <=? n) && (n <=? len bs)); [|discriminate].
  intros H. injection H as _ <-. rewrite length_skipn. lia.
Qed.

Lemma parse_field_consumes (bs : bytes) (f : field) (rest : bytes) :
  parse_field bs = Some (f, rest) ->
  (List.length rest < List.length bs)%nat.
Proof.
  unfold parse_field, decode_varint.
  destruct (decode_varint_from 0 0 bs) as [[tag r]|] eqn:Htag;
    [|discriminate].
  apply decode_varint_from_consumes in Htag.
  destruct (Z.shiftr tag 3 <=? 0); [discriminate|].
  destruct (Z.land tag 7 =? 0).
  { destruct (decode_varint_from 0 0 r) as [[v r']|] eqn:Hv; [|discriminate].
    apply decode_varint_from_consumes in Hv.
    intros H. injection H as _ <-. lia. }
  destruct (Z.land tag 7 =? 1).
  { destruct (take 8 r) as [[p r']|] eqn:Hp; [|discriminate].
    apply take_consumes in Hp. intros H. injection H as _ <-. lia. }
  destruct (Z.land tag 7 =? 2).
  { destruct (decode_varint_from 0 0 r) as [[n r']|] eqn:Hn; [|discriminate].
    apply decode_varint_from_consumes in Hn.
    destruct (take n r') as [[p r'']|] eqn:Hp; [|discriminate].
    apply take_consumes in Hp. intros H. injection H as _ <-. lia. }
  destruct (Z.land tag 7 =? 5); [|discriminate].
  destruct (take 4 r) as [[p r']|] eqn:Hp; [|discriminate].
  apply take_consumes in Hp. intros H. injection H as _ <-. lia.
Qed.

Lemma parse_fields_more_fuel (n : nat) :
  forall bs fs m,
    parse_fields n bs = Some fs -> (n <= m)%nat ->
    parse_fields m bs = Some fs.
Proof.
  induction n as [|n IH]; intros bs fs m H Hm.
  - destruct bs; [|discriminate]. destruct m; exact H.
  - destruct bs as [|b bs]; [destruct m; exact H|].
    destruct m as [|m]; [lia|].
    cbn [parse_fields] in *.
    destruct (parse_field (b :: bs)) as [[f rest]|]; [|discriminate].
    destruct (parse_fields n rest) as [fs'|] eqn:E; [|discriminate].
    rewrite (IH _ _ m E) by lia. exact H.
Qed.

Lemma parse_message_cons (bs rest : bytes) (f : field) (fs : list field) :
  parse_field bs = Some (f, rest) ->
  parse_message rest = Some fs ->
  parse_message bs = Some (f :: fs).
Proof.
  intros Hf Hfs. pose proof (parse_field_consumes _ _ _ Hf) as Hlen.
  unfold parse_message in *.
  destruct bs as [|b bs]; [simpl in Hlen; lia|].
  cbn [List.length parse_fields]. rewrite Hf.
  rewrite (parse_fields_more_fuel _ _ _ (List.length bs) Hfs)
    by (simpl in Hlen; lia).
  reflexivity.
Qed.

Lemma parse_message_nil : parse_message [] = Some [].
Proof. reflexivity. Qed.

(** A run of length-delimited entries of one field, followed by more. *)
Lemma parse_message_repeated (tag : Z) (items : list bytes) (rest : bytes)
  (fs : list field) :
  0 <= tag <= 127 -> Z.land tag 7 = 2 -> 0 < Z.shiftr tag 3 ->
  parse_message rest = Some fs ->
  parse_message (List.concat (map (ld_field tag) items) ++ rest)
  = Some (map (fun item => (Z.shiftr tag 3, Len item)) items ++ fs).
Proof.
  intros Ht Hw Hn Hrest. induction items as [|item items IH].
  - exact Hrest.
  - cbn [map List.concat app]. rewrite <- app_assoc.
    apply (parse_message_cons _ _ _ _
             (parse_field_length_delimited tag item _ Ht Hw Hn) IH).
Qed.

(** C4. For every body, auth info and list of signatures, [create_tx_raw]
    returns field 1 (tag, varint length, body), field 2 (tag, varint length,
    auth info) and one field-3 entry per signature in list order; every
    length prefix reads back as the exact length of its payload; and the
    protobuf parser recovers exactly the body, the auth info and the
    signatures, in order. *)
Theorem create_tx_raw_layout (tx_body auth_info : bytes)
  (signatures : list bytes) :
  exists l1 l2 raw,
    create_tx_raw tx_body auth_info signatures = Ok raw
    /\ encode_varint (len tx_body) = Ok l1
    /\ encode_varint (len auth_info) = Ok l2
    /\ raw = (x0a :: l1 ++ tx_body) ++ (x12 :: l2 ++ auth_info)
             ++ List.concat
                  (map (fun sg : bytes => x1a :: varint (len sg) ++ sg) signatures)
    /\ decode_varint l1 = Some (len tx_body, [])
    /\ decode_varint l2 = Some (len auth_info, [])
    /\ (forall sg : bytes,
          encode_varint (len sg) = Ok (varint (len sg))
          /\ decode_varint (varint (len sg)) = Some (len sg, []))
    /\ parse_message raw
       = Some ((1, Len tx_body) :: (2, Len auth_info)
               :: map (fun sg => (3, Len sg)) signatures).
Proof.
  assert (Hdec : forall p : bytes,
             decode_varint (varint (len p)) = Some (len p, [])).
  { intros p. rewrite <- (app_nil_r (varint (len p))).
    apply decode_varint_varint, len_nonneg. }
  exists (varint (len tx_body)), (varint (len auth_info)).
  eexists. split; [apply create_tx_raw_returns|].
  split; [apply encode_varint_returns|].
  split; [apply encode_varint_returns|].
  split; [reflexivity|].
  split; [apply Hdec|]. split; [apply Hdec|].
  split; [intros sg; split; [apply encode_varint_returns|apply Hdec]|].
  apply (parse_message_cons _ _ _ _
           (parse_field_length_delimited 0x0a tx_body _
              ltac:(lia) eq_refl eq_refl)).
  apply (parse_message_cons _ _ _ _
           (parse_field_length_delimited 0x12 auth_info _
              ltac:(lia) eq_refl eq_refl)).
  rewrite <- (app_nil_r (List.concat _)).
  rewrite (parse_message_repeated 0x1a signatures [] []
             ltac:(lia) eq_refl eq_refl parse_message_nil).
  rewrite app_nil_r. reflexivity.
Qed.

(* ===================================================================== *)
(** ** Address decoding                                                   *)
(* ===================================================================== *)

(** Induction along the recursion of [fromhex]: skip one character of
    whitespace, or consume two characters. *)
Lemma fromhex_ind (P : str -> Prop) :
  P [] ->
  (forall c rest, is_ascii_space c = true -> P rest -> P (c :: rest)) ->
  (forall c, is_ascii_space c = false -> P [c]) ->
  (forall c d rest, is_ascii_space c = false -> P rest -> P (c :: d :: rest)) ->
  forall s, P s.
Proof.
  intros Hnil Hspace Hone Htwo s.
  assert (H : P s /\ forall c, P (c :: s)); [|exact (proj1 H)].
  induction s as [|d s [IH1 IH2]].
  - split; [exact Hnil|]. intros c.
    destruct (is_ascii_space c) eqn:E; [apply Hspace|apply Hone]; assumption.
  - split; [apply IH2|]. intros c.
    destruct (is_ascii_space c) eqn:E; [apply Hspace|apply Htwo]; auto.
Qed.

Ltac split_comparisons :=
  repeat match goal with
    | |- context [?a <=? ?b] => destruct (Z.leb_spec a b)
    | |- context [?a =? ?b] => destruct (Z.eqb_spec a b)
    | H : context [?a <=? ?b] |- _ => destruct (Z.leb_spec a b)
    | H : context [?a =? ?b] |- _ => destruct (Z.eqb_spec a b)
    end.

Lemma hex_digit_not_space (c : Z) :
  is_hex_digit c = true -> is_ascii_space c = false.
Proof.
  unfold is_hex_digit, hex_digit_value, is_ascii_space.
  split_comparisons; simpl; intros; try lia; congruence.
Qed.

Lemma hex_digit_value_range (c v : Z) :
  hex_digit_value c = Some v -> 0 <= v <= 15 /\ 0 <= c < 128.
Proof.
  unfold hex_digit_value.
  split_comparisons; simpl; intros E; try discriminate;
    injection E as <-; lia.
Qed.

Lemma ascii_space_range (c : Z) : is_ascii_space c = true -> 0 <= c < 128.
Proof.
  unfold is_ascii_space. split_comparisons; simpl; intros; try lia;
    discriminate.
Qed.

Lemma is_hex_digit_value (c : Z) :
  is_hex_digit c = true -> exists v, hex_digit_value c = Some v.
Proof.
  unfold is_hex_digit. destruct (hex_digit_value c) as [v|]; [|discriminate].
  intros _. exists v. reflexivity.
Qed.

(** [2 * n] hexadecimal digits decode to [n] octets. *)
Lemma fromhex_digits (n : nat) :
  forall s,
    List.length s = (2 * n)%nat ->
    forallb is_hex_digit s = true ->
    exists bs, fromhex s = Ok bs /\ List.length bs = n.
Proof.
  induction n as [|n IH]; intros s Hlen Hhex.
  - destruct s; [|discriminate]. exists []. split; reflexivity.
  - destruct s as [|c [|d s]]; try (simpl in Hlen; lia).
    cbn [forallb] in Hhex.
    apply andb_prop in Hhex as [Hc Hhex].
    apply andb_prop in Hhex as [Hd Hhex].
    destruct (IH s) as (bs & Hbs & Hn); [simpl in Hlen; lia|assumption|].
    destruct (is_hex_digit_value c Hc) as [top Htop].
    destruct (is_hex_digit_value d Hd) as [bot Hbot].
    cbn [fromhex].
    rewrite (hex_digit_not_space c Hc), Htop, Hbot, Hbs. cbn [bind].
    eexists. split; [reflexivity|]. simpl. lia.
Qed.

(** Whatever [fromhex] accepts is made of ASCII characters only. *)
Lemma fromhex_accepts_ascii (s : str) :
  forall bs, fromhex s = Ok bs -> Forall (fun c => 0 <= c < 128) s.
Proof.
  pattern s. apply fromhex_ind; clear s.
  - intros bs _. constructor.
  - intros c rest Hc IH bs H. cbn [fromhex] in H. rewrite Hc in H.
    constructor; [apply ascii_space_range; assumption|eauto].
  - intros c Hc bs H. cbn [fromhex] in H. rewrite Hc in H.
    destruct (hex_digit_value c); discriminate.
  - intros c d rest Hc IH bs H. cbn [fromhex] in H. rewrite Hc in H.
    destruct (hex_digit_value c) as [top|] eqn:Htop; [|discriminate].
    destruct (hex_digit_value d) as [bot|] eqn:Hbot; [|discriminate].
    destruct (fromhex rest) as [bs'|e] eqn:Hrest; [|discriminate].
    apply hex_digit_value_range in Htop, Hbot.
    constructor; [lia|]. constructor; [lia|]. eauto.
Qed.

(** [fromhex] raises nothing but [ValueError]. *)
Lemma fromhex_raises (s : str) :
  forall e, fromhex s = Raise e -> e = ValueError NonHexadecimalNumber.
Proof.
  pattern s. apply fromhex_ind; clear s.
  - discriminate.
  - intros c rest Hc IH e H. cbn [fromhex] in H. rewrite Hc in H. auto.
  - intros c Hc e H. cbn [fromhex] in H. rewrite Hc in H.
    destruct (hex_digit_value c); congruence.
  - intros c d rest Hc IH e H. cbn [fromhex] in H. rewrite Hc in H.
    destruct (hex_digit_value c); [|congruence].
    destruct (hex_digit_value d); [|congruence].
    destruct (fromhex rest) as [bs|e'] eqn:Hrest; [discriminate|].
    cbn [bind] in H. injection H as <-. apply IH. reflexivity.
Qed.

(** A character that is neither a hexadecimal digit nor ASCII whitespace
    makes [fromhex] raise. *)
Lemma fromhex_rejects (s : str) :
  forall c,
    In c s -> is_hex_digit c = false -> is_ascii_space c = false ->
    fromhex s = Raise (ValueError NonHexadecimalNumber).
Proof.
  pattern s. apply fromhex_ind; clear s.
  - intros c [].
  - intros c rest Hc IH x [<-|Hin] Hx Hs; [congruence|].
    cbn [fromhex]. rewrite Hc. eauto.
  - intros c Hc x _ _ _. cbn [fromhex]. rewrite Hc.
    destruct (hex_digit_value c); reflexivity.
  - intros c d rest Hc IH x Hin Hx Hs. cbn [fromhex]. rewrite Hc.
    destruct (hex_digit_value c) as [top|] eqn:Htop; [|reflexivity].
    destruct (hex_digit_value d) as [bot|] eqn:Hbot; [|reflexivity].
    destruct Hin as [<-|[<-|Hin]].
    + unfold is_hex_digit in Hx. rewrite Htop in Hx. discriminate.
    + unfold is_hex_digit in Hx. rewrite Hbot in Hx. discriminate.
    + rewrite (IH x Hin Hx Hs). reflexivity.
Qed.

(** The three parts of the address contract the source does enforce. *)
Lemma thor_address_to_bytes_well_formed (a : str) :
  well_formed_address a ->
  exists account_id,
    thor_address_to_bytes a = Ok account_id /\ len account_id = 20.
Proof.
  intros (Hp & Hl & Hh). unfold thor_address_to_bytes.
  rewrite Hp, Hl. cbn [negb Z.eqb Pos.eqb].
  destruct (fromhex_digits 20 (slice_from 5 a)) as (bs & Hbs & Hn);
    [unfold len in Hl; lia|assumption|].
  rewrite Hbs. exists bs. split; [reflexivity|]. unfold len. lia.
Qed.

Lemma thor_address_to_bytes_prefix_mismatch (a : str) :
  startswith a (py "thor1") = false ->
  thor_address_to_bytes a = Raise (ValueError InvalidAddressPrefix).
Proof.
  intros Hp. unfold thor_address_to_bytes. rewrite Hp. reflexivity.
Qed.

Lemma thor_address_to_bytes_wrong_length (a : str) :
  startswith a (py "thor1") = true ->
  len (slice_from 5 a) <> 40 ->
  thor_address_to_bytes a = Raise (ValueError InvalidAddressLength).
Proof.
  intros Hp Hl. unfold thor_address_to_bytes. rewrite Hp. cbn [negb].
  destruct (Z.eqb_spec (len (slice_from 5 a)) 40); [contradiction|].
  reflexivity.
Qed.

Lemma thor_address_to_bytes_invalid_hex (a : str) (c : Z) :
  startswith a (py "thor1") = true ->
  len (slice_from 5 a) = 40 ->
  In c (slice_from 5 a) ->
  is_hex_digit c = false -> is_ascii_space c = false ->
  thor_address_to_bytes a = Raise (ValueError InvalidHexData).
Proof.
  intros Hp Hl Hin Hx Hs. unfold thor_address_to_bytes.
  rewrite Hp, Hl. cbn [negb Z.eqb Pos.eqb].
  rewrite (fromhex_rejects _ c Hin Hx Hs). reflexivity.
Qed.

(** Scenario 2 of the specification: a foreign prefix. *)
Example thor_address_to_bytes_cosmos_prefix :
  thor_address_to_bytes (py "cosm1a3eb9d2cbea51896c33209f2bb5ff979a44201a2")
  = Raise (ValueError InvalidAddressPrefix).
Proof. reflexivity. Qed.

(** C5 (where the source departs from it). The remainder below has forty
    characters, the last two of them spaces: it is not forty hexadecimal
    digits, yet [thor_address_to_bytes] raises nothing and returns nineteen
    octets, because [bytes.fromhex] skips whitespace. *)
Theorem thor_address_to_bytes_skips_whitespace :
  let a := py "thor1a3eb9d2cbea51896c33209f2bb5ff979a44201  " in
  len (slice_from 5 a) = 40
  /\ forallb is_hex_digit (slice_from 5 a) = false
  /\ thor_address_to_bytes a
     = Ok [xa3; xeb; x9d; x2c; xbe; xa5; x18; x96; xc3; x32;
           x09; xf2; xbb; x5f; xf9; x79; xa4; x42; x01]
  /\ (forall account_id,
        thor_address_to_bytes a = Ok account_id -> len account_id = 19).
Proof.
  intros a. split; [reflexivity|]. split; [reflexivity|].
  split; [reflexivity|].
  intros account_id H. vm_compute in H. injection H as <-. reflexivity.
Qed.

(* ===================================================================== *)
(** ** The memo field of the transaction body                             *)
(* ===================================================================== *)

Lemma parse_message_tx_body (messages : list bytes) (memo_bytes : bytes) :
  parse_message (List.concat (map (ld_field 0x0a) messages)
                   ++ ld_field 0x12 memo_bytes ++ [x18; x00])
  = Some (map (fun m => (1, Len m)) messages
            ++ [(2, Len memo_bytes); (3, Varint 0)]).
Proof.
  apply (parse_message_repeated 0x0a messages _ _ ltac:(lia) eq_refl eq_refl).
  apply (parse_message_cons _ _ _ _
           (parse_field_length_delimited 0x12 memo_bytes _
              ltac:(lia) eq_refl eq_refl)).
  reflexivity.
Qed.

(** C6. For every list of messages and every memo (that UTF-8 can encode),
    [create_tx_body] returns the message entries, then a field-2 entry whose
    length prefix is the varint of the number of UTF-8 octets of the memo,
    then the timeout field; the empty memo gives the zero-length entry
    [12 00], not an omission; and a memo of one three-octet character gets
    the prefix [03], not [01]. *)
Theorem create_tx_body_memo_field (messages : list bytes) (memo : str)
  (memo_bytes : bytes) (Hmemo : encode_utf8 memo = Ok memo_bytes) :
  exists prefix body,
    create_tx_body messages memo = Ok body
    /\ encode_varint (len memo_bytes) = Ok prefix
    /\ decode_varint prefix = Some (len memo_bytes, [])
    /\ body = List.concat (map (ld_field 0x0a) messages)
              ++ (x12 :: prefix ++ memo_bytes) ++ [x18; x00]
    /\ parse_message body
       = Some (map (fun m => (1, Len m)) messages
                 ++ [(2, Len memo_bytes); (3, Varint 0)])
    /\ create_tx_body messages []
       = Ok (List.concat (map (ld_field 0x0a) messages)
               ++ [x12; x00] ++ [x18; x00])
    /\ create_tx_body [] [0x20AC] = Ok [x12; x03; xe2; x82; xac; x18; x00].
Proof.
  exists (varint (len memo_bytes)). eexists.
  split; [apply (create_tx_body_returns _ _ _ Hmemo)|].
  split; [apply encode_varint_returns|].
  split.
  { rewrite <- (app_nil_r (varint _)).
    apply decode_varint_varint, len_nonneg. }
  split; [reflexivity|].
  split; [apply parse_message_tx_body|].
  split; [|reflexivity].
  apply (create_tx_body_returns messages [] []). reflexivity.
Qed.

Lemma create_tx_body_memo_field_witness :
  encode_utf8 [0x20AC; 0x41] = Ok [xe2; x82; xac; x41]
  /\ exists body,
       create_tx_body [[x01]] [0x20AC; 0x41] = Ok body
       /\ body = [x0a; x01; x01; x12; x04; xe2; x82; xac; x41; x18; x00].
Proof.
  assert (H : encode_utf8 [0x20AC; 0x41] = Ok [xe2; x82; xac; x41])
    by reflexivity.
  split; [exact H|].
  destruct (create_tx_body_memo_field [[x01]] [0x20AC; 0x41] _ H)
    as (prefix & body & Hbody & Hprefix & _ & Heq & _).
  exists body. split; [exact Hbody|].
  vm_compute in Hprefix. injection Hprefix as <-. exact Heq.
Defined.

(* ===================================================================== *)
(** ** Base64 text and its decoding                                       *)
(* ===================================================================== *)

Lemma lor_shiftl_add (hi lo k : Z) :
  0 <= k -> 0 <= lo < 2 ^ k -> Z.lor (Z.shiftl hi k) lo = hi * 2 ^ k + lo.
Proof.
  intros Hk Hlo. rewrite <- Z.shiftl_mul_pow2 by lia.
  pose proof (Z.add_lor_land (Z.shiftl hi k) lo) as Hadd.
  assert (Hdisjoint : Z.land (Z.shiftl hi k) lo = 0).
  { apply Z.bits_inj'. intros n Hn. rewrite Z.land_spec, Z.bits_0.
    destruct (Z.ltb_spec n k).
    - rewrite Z.shiftl_spec_low by lia. reflexivity.
    - rewrite <- (Z.mod_small lo (2 ^ k)) by lia.
      rewrite Z.mod_pow2_bits_high by lia. apply andb_false_r. }
  lia.
Qed.

Lemma low6_mod (x : Z) : Z.land x 63 = x mod 64.
Proof. change 63 with (Z.ones 6). rewrite Z.land_ones by lia. reflexivity. Qed.

Lemma byte_of_Z_mod (x : Z) (b : byte) :
  x mod 256 = byte_val b -> byte_of_Z x = b.
Proof.
  intros H. rewrite <- (byte_of_Z_val b), <- H.
  unfold byte_of_Z. rewrite Z.mod_mod by lia. reflexivity.
Qed.

Lemma sextets_3 (a b c : Z) :
  0 <= a <= 255 -> 0 <= b <= 255 -> 0 <= c <= 255 ->
  let n := Z.lor (Z.shiftl a 16) (Z.lor (Z.shiftl b 8) c) in
  let s0 := Z.shiftr n 18 in
  let s1 := Z.land (Z.shiftr n 12) 63 in
  let s2 := Z.land (Z.shiftr n 6) 63 in
  let s3 := Z.land n 63 in
  (0 <= s0 < 64 /\ 0 <= s1 < 64 /\ 0 <= s2 < 64 /\ 0 <= s3 < 64)
  /\ Z.lor (Z.shiftl s0 2) (Z.shiftr s1 4) mod 256 = a
  /\ Z.lor (Z.shiftl s1 4) (Z.shiftr s2 2) mod 256 = b
  /\ Z.lor (Z.shiftl s2 6) s3 mod 256 = c.
Proof.
  intros Ha Hb Hc n s0 s1 s2 s3.
  assert (Hn : n = a * 65536 + b * 256 + c).
  { unfold n. rewrite (lor_shiftl_add b c 8) by lia.
    rewrite (lor_shiftl_add a _ 16) by lia.
    change (2 ^ 16) with 65536. change (2 ^ 8) with 256. lia. }
  unfold s0, s1, s2, s3. rewrite !low6_mod, !Z.shiftr_div_pow2 by lia.
  rewrite Hn. change (2 ^ 18) with 262144. change (2 ^ 12) with 4096.
  change (2 ^ 6) with 64. change (2 ^ 4) with 16. change (2 ^ 2) with 4.
  assert (H0 : 0 <= (a * 65536 + b * 256 + c) / 262144 < 64)
    by (Z.div_mod_to_equations; lia).
  assert (H1 : 0 <= ((a * 65536 + b * 256 + c) / 4096) mod 64 < 64)
    by (apply Z.mod_pos_bound; lia).
  assert (H2 : 0 <= ((a * 65536 + b * 256 + c) / 64) mod 64 < 64)
    by (apply Z.mod_pos_bound; lia).
  assert (H3 : 0 <= (a * 65536 + b * 256 + c) mod 64 < 64)
    by (apply Z.mod_pos_bound; lia).
  split; [tauto|].
  rewrite !lor_shiftl_add.
  2-7: try lia.
  all: change (2 ^ 6) with 64; change (2 ^ 4) with 16; change (2 ^ 2) with 4.
  all: try (Z.div_mod_to_equations; lia).
Qed.

Lemma b64_char_index (i : Z) :
  0 <= i < 64 ->
  b64_index (b64_char i) = Some i
  /\ Byte.eqb (b64_char i) b64_pad = false.
Proof.
  intros Hi.
  pose (check := fun n : nat =>
          match b64_index (b64_char (Z.of_nat n)) with
          | Some j => j =? Z.of_nat n
          | None => false
          end && negb (Byte.eqb (b64_char (Z.of_nat n)) b64_pad)).
  assert (Hall : forallb check (seq 0 64) = true) by (vm_compute; reflexivity).
  rewrite forallb_forall in Hall.
  specialize (Hall (Z.to_nat i)). unfold check in Hall.
  rewrite Z2Nat.id in Hall by lia.
  assert (Hin : In (Z.to_nat i) (seq 0 64)) by (apply in_seq; lia).
  apply Hall in Hin. apply andb_prop in Hin as [Hidx Hpad].
  destruct (b64_index (b64_char i)) as [j|]; [|discriminate].
  apply Z.eqb_eq in Hidx. subst j.
  split; [reflexivity|]. destruct (Byte.eqb (b64_char i) b64_pad);
    [discriminate|reflexivity].
Qed.

Lemma b64_char_ascii (i : Z) : byte_val (b64_char i) < 128.
Proof.
  assert (Hall : forallb (fun b => byte_val b <? 128) (x00 :: b64_alphabet)
                 = true) by (vm_compute; reflexivity).
  rewrite forallb_forall in Hall.
  apply Z.ltb_lt, Hall. unfold b64_char.
  destruct (nth_in_or_default (Z.to_nat i) b64_alphabet x00) as [H|H].
  - right. exact H.
  - left. symmetry. exact H.
Qed.

(** Induction three octets at a time, as [b64encode] recurses. *)
Lemma list_ind3 {A : Type} (P : list A -> Prop) :
  P [] -> (forall a, P [a]) -> (forall a b, P [a; b]) ->
  (forall a b c rest, P rest -> P (a :: b :: c :: rest)) ->
  forall l, P l.
Proof.
  intros H0 H1 H2 H3 l.
  assert (H : P l /\ (forall a, P (a :: l)) /\ (forall a b, P (a :: b :: l)));
    [|exact (proj1 H)].
  induction l as [|c l (IH0 & IH1 & IH2)].
  - auto.
  - split; [apply IH1|]. split; [intros a; apply IH2|].
    intros a b. apply H3, IH0.
Qed.

Lemma b64decode_b64encode (bs : bytes) : b64decode (b64encode bs) = Some bs.
Proof.
  pattern bs. apply list_ind3; clear bs.
  - reflexivity.
  - intros a.
    pose proof (sextets_3 (byte_val a) 0 0 (byte_val_range a)
                  ltac:(lia) ltac:(lia)) as H.
    cbv zeta in H. change (Z.lor (Z.shiftl 0 8) 0) with 0 in H.
    rewrite Z.lor_0_r in H. destruct H as ((R0 & R1 & _) & E0 & _).
    cbn [b64encode b64decode].
    destruct (b64_char_index _ R0) as [-> _].
    destruct (b64_char_index _ R1) as [-> _].
    change (Byte.eqb b64_pad b64_pad) with true. cbv iota.
    rewrite (byte_of_Z_mod _ a E0). reflexivity.
  - intros a b.
    pose proof (sextets_3 (byte_val a) (byte_val b) 0 (byte_val_range a)
                  (byte_val_range b) ltac:(lia)) as H.
    cbv zeta in H. rewrite Z.lor_0_r in H.
    destruct H as ((R0 & R1 & R2 & _) & E0 & E1 & _).
    cbn [b64encode b64decode].
    destruct (b64_char_index _ R0) as [-> _].
    destruct (b64_char_index _ R1) as [-> _].
    destruct (b64_char_index _ R2) as [-> ->].
    change (Byte.eqb b64_pad b64_pad) with true. cbv iota.
    rewrite (byte_of_Z_mod _ a E0), (byte_of_Z_mod _ b E1). reflexivity.
  - intros a b c rest IH.
    destruct (sextets_3 (byte_val a) (byte_val b) (byte_val c)
                (byte_val_range a) (byte_val_range b) (byte_val_range c))
      as ((R0 & R1 & R2 & R3) & E0 & E1 & E2).
    cbn [b64encode b64decode].
    destruct (b64_char_index _ R0) as [-> _].
    destruct (b64_char_index _ R1) as [-> _].
    destruct (b64_char_index _ R2) as [-> ->].
    destruct (b64_char_index _ R3) as [-> ->].
    rewrite IH.
    rewrite (byte_of_Z_mod _ a E0), (byte_of_Z_mod _ b E1),
      (byte_of_Z_mod _ c E2).
    reflexivity.
Qed.

Lemma b64encode_ascii (bs : bytes) :
  Forall (fun b => byte_val b < 128) (b64encode bs).
Proof.
  pattern bs. apply list_ind3; clear bs.
  - constructor.
  - intros a. cbn [b64encode].
    repeat constructor; try apply b64_char_ascii; reflexivity.
  - intros a b. cbn [b64encode].
    repeat constructor; try apply b64_char_ascii; reflexivity.
  - intros a b c rest IH. cbn [b64encode].
    repeat (constructor; [apply b64_char_ascii|]). exact IH.
Qed.

Lemma decode_utf8_ascii (bs : bytes) :
  Forall (fun b => byte_val b < 128) bs ->
  decode_utf8 bs = Ok (map byte_val bs).
Proof.
  induction 1 as [|b bs Hb _ IH].
  - reflexivity.
  - cbn [decode_utf8 map]. cbv zeta.
    destruct (Z.ltb_spec (byte_val b) 128); [|lia].
    rewrite IH. reflexivity.
Qed.

Lemma ascii_bytes_byte_val (bs : bytes) : ascii_bytes (map byte_val bs) = bs.
Proof.
  unfold ascii_bytes. rewrite map_map.
  rewrite (map_ext _ id); [apply map_id|]. intros b. apply byte_of_Z_val.
Qed.

(** The base64 text of [bs], as the [str] the source returns, decodes back
    to [bs]. *)
Lemma base64_text_round_trip (bs : bytes) :
  exists text,
    decode_utf8 (b64encode bs) = Ok text
    /\ b64decode (ascii_bytes text) = Some bs.
Proof.
  exists (map byte_val (b64encode bs)). split.
  - apply decode_utf8_ascii, b64encode_ascii.
  - rewrite ascii_bytes_byte_val. apply b64decode_b64encode.
Qed.

(* ===================================================================== *)
(** ** Lines that can be printed                                          *)
(* ===================================================================== *)

Lemma encode_utf8_app (a b : str) (x y : bytes) :
  encode_utf8 a = Ok x -> encode_utf8 b = Ok y ->
  encode_utf8 (a ++ b) = Ok (x ++ y).
Proof.
  revert x. induction a as [|c a IH]; intros x Ha Hb.
  - injection Ha as <-. exact Hb.
  - cbn [encode_utf8 app] in *.
    destruct (utf8_char c) as [cb|e]; [|discriminate]. cbn [bind] in *.
    destruct (encode_utf8 a) as [ab|e]; [|discriminate]. cbn [bind] in *.
    injection Ha as <-. rewrite (IH ab eq_refl Hb). cbn [bind].
    rewrite app_assoc. reflexivity.
Qed.

Lemma encodable_app (a b : str) :
  encodable a -> encodable b -> encodable (a ++ b).
Proof.
  intros [x Hx] [y Hy]. exists (x ++ y). apply encode_utf8_app; assumption.
Qed.

(** Below the surrogates every code point has an encoding. *)
Lemma encodable_below_surrogates (s : str) :
  Forall (fun c => 0 <= c < 0xD800) s -> encodable s.
Proof.
  induction 1 as [|c s Hc _ [bs IH]].
  - exists []. reflexivity.
  - assert (Hchar : exists cb, utf8_char c = Ok cb).
    { unfold utf8_char, is_surrogate.
      destruct (Z.ltb_spec c 0); [lia|].
      destruct (Z.ltb_spec c 128); [eexists; reflexivity|].
      destruct (Z.ltb_spec c 2048); [eexists; reflexivity|].
      destruct (Z.leb_spec 55296 c); [lia|]. cbn [andb].
      destruct (Z.ltb_spec c 65536); [eexists; reflexivity|lia]. }
    destruct Hchar as [cb Hcb].
    exists (cb ++ bs). cbn [encode_utf8]. rewrite Hcb, IH. reflexivity.
Qed.

Lemma encodable_py (s : string) : encodable (py s).
Proof.
  apply encodable_below_surrogates. unfold py.
  apply Forall_map, Forall_forall. intros a _.
  pose proof (N_ascii_bounded a). lia.
Qed.

Lemma startswith_app (p s : str) :
  startswith s p = true -> s = p ++ skipn (List.length p) s.
Proof.
  revert s. induction p as [|c p IH]; intros s H.
  - reflexivity.
  - destruct s as [|d s]; [discriminate|].
    cbn [startswith] in H. apply andb_prop in H as [Hc Hp].
    apply Z.eqb_eq in Hc. subst d.
    cbn [List.length skipn app]. f_equal. apply IH, Hp.
Qed.

(** An address that decodes is made of ASCII characters, so the progress
    line that shows it can be printed. *)
Lemma decodable_address_encodable (a : str) (account_id : bytes) :
  thor_address_to_bytes a = Ok account_id -> encodable a.
Proof.
  unfold thor_address_to_bytes.
  destruct (startswith a (py "thor1")) eqn:Hp; [|discriminate].
  cbn [negb]. destruct (len (slice_from 5 a) =? 40); [|discriminate].
  cbn [negb].
  destruct (fromhex (slice_from 5 a)) as [bs|e] eqn:Hhex.
  - intros _. rewrite (startswith_app _ _ Hp).
    apply encodable_app; [apply encodable_py|].
    apply encodable_below_surrogates.
    apply fromhex_accepts_ascii in Hhex.
    eapply Forall_impl; [|exact Hhex]. cbv beta. intros c Hc. lia.
  - destruct e as [m| | |]; discriminate.
Qed.

(* ===================================================================== *)
(** ** Running [create_thor_transaction]                                  *)
(* ===================================================================== *)

Lemma run_print {A : Type} (line : str) (k : unit -> IO A) (w : world) :
  encodable line ->
  io_bind (print line) k w = k tt {| stdout := stdout w ++ [line] |}.
Proof.
  intros [bs Hbs]. unfold io_bind, print. rewrite Hbs. reflexivity.
Qed.

Lemma run_lift {A B : Type} (a : A) (k : A -> IO B) (w : world) :
  io_bind (lift (Ok a)) k w = k a w.
Proof. reflexivity. Qed.

(** The auth info of every transaction: sequence 0, gas limit 200000. *)
Lemma create_auth_info_default :
  create_auth_info default_sequence default_gas_limit
  = Ok [x0a; x02; x18; x00; x12; x04; x10; xc0; x9a; x0c].
Proof. reflexivity. Qed.

Ltac encodable_line :=
  repeat first
    [ apply encodable_py
    | eassumption
    | exists [xf0; x9f; x94; xa7]; reflexivity
    | exists [xf0; x9f; x93; xa6]; reflexivity
    | apply encodable_app ].

(** On addresses that decode and a memo that can be encoded, the call
    returns the base64 text of the raw transaction built from the send
    message, the fixed auth info and the 64 zero octets. *)
Lemma create_thor_transaction_returns (from_addr to_addr memo : str)
  (fb tb mb : bytes) (w : world) :
  thor_address_to_bytes from_addr = Ok fb ->
  thor_address_to_bytes to_addr = Ok tb ->
  encode_utf8 memo = Ok mb ->
  let msg_send := ld_field 0x0a fb ++ ld_field 0x12 tb in
  let any_msg :=
    ld_field 0x0a (utf8 (py "/types.MsgSend")) ++ ld_field 0x12 msg_send in
  let tx_body := ld_field 0x0a any_msg ++ ld_field 0x12 mb ++ [x18; x00] in
  let auth_info := [x0a; x02; x18; x00; x12; x04; x10; xc0; x9a; x0c] in
  let tx_raw :=
    ld_field 0x0a tx_body ++ ld_field 0x12 auth_info
      ++ ld_field 0x1a (repeat x00 64) in
  fst (create_thor_transaction from_addr to_addr memo w)
  = Ok (map byte_val (b64encode tx_raw)).
Proof.
  intros Hf Ht Hm msg_send any_msg tx_body auth_info tx_raw.
  pose proof (decodable_address_encodable _ _ Hf) as Hef.
  pose proof (decodable_address_encodable _ _ Ht) as Het.
  assert (Hem : encodable memo) by (exists mb; exact Hm).
  unfold create_thor_transaction.
  do 4 (rewrite run_print by encodable_line).
  rewrite (create_thor_msgsend_returns _ _ _ _ Hf Ht), run_lift.
  rewrite run_print by encodable_line.
  rewrite (create_any_message_returns (py "/types.MsgSend")
             (utf8 (py "/types.MsgSend")) _ eq_refl), run_lift.
  rewrite run_print by encodable_line.
  rewrite (create_tx_body_returns _ _ _ Hm), run_lift.
  rewrite run_print by encodable_line.
  rewrite create_auth_info_default, run_lift.
  rewrite run_print by encodable_line.
  cbv zeta.
  rewrite run_print by encodable_line.
  rewrite create_tx_raw_returns, run_lift.
  rewrite run_print by encodable_line.
  cbn [map List.concat]. rewrite !app_nil_r.
  fold msg_send. fold any_msg. fold tx_body. fold auth_info. fold tx_raw.
  rewrite (decode_utf8_ascii _ (b64encode_ascii tx_raw)), run_lift.
  rewrite run_print by encodable_line.
  reflexivity.
Qed.

(** The parts of a raw transaction, read back. *)
Lemma parse_message_tx_raw (tx_body auth_info signature : bytes) :
  parse_message (ld_field 0x0a tx_body ++ ld_field 0x12 auth_info
                   ++ ld_field 0x1a signature)
  = Some [(1, Len tx_body); (2, Len auth_info); (3, Len signature)].
Proof.
  apply (parse_message_cons _ _ _ _
           (parse_field_length_delimited 0x0a tx_body _
              ltac:(lia) eq_refl eq_refl)).
  apply (parse_message_cons _ _ _ _
           (parse_field_length_delimited 0x12 auth_info _
              ltac:(lia) eq_refl eq_refl)).
  rewrite <- (app_nil_r (ld_field 0x1a signature)).
  apply (parse_message_cons _ _ _ _
           (parse_field_length_delimited 0x1a signature _
              ltac:(lia) eq_refl eq_refl)).
  reflexivity.
Qed.

Lemma parse_message_two_fields (p1 p2 : bytes) :
  parse_message (ld_field 0x0a p1 ++ ld_field 0x12 p2)
  = Some [(1, Len p1); (2, Len p2)].
Proof.
  apply (parse_message_cons _ _ _ _
           (parse_field_length_delimited 0x0a p1 _
              ltac:(lia) eq_refl eq_refl)).
  rewrite <- (app_nil_r (ld_field 0x12 p2)).
  apply (parse_message_cons _ _ _ _
           (parse_field_length_delimited 0x12 p2 _
              ltac:(lia) eq_refl eq_refl)).
  reflexivity.
Qed.

Lemma parse_message_tx_body_one (any_msg memo_bytes : bytes) :
  parse_message (ld_field 0x0a any_msg ++ ld_field 0x12 memo_bytes
                   ++ [x18; x00])
  = Some [(1, Len any_msg); (2, Len memo_bytes); (3, Varint 0)].
Proof.
  pose proof (parse_message_tx_body [any_msg] memo_bytes) as H.
  cbn [map List.concat app] in H. rewrite app_nil_r in H. exact H.
Qed.

(** C9. For every two addresses that decode and every memo (that UTF-8
    can encode), the transaction [create_thor_transaction] returns has
    exactly one signer info with sequence 0, a fee with gas limit 200000,
    timeout height 0 and exactly one signature of 64 zero octets; apart from
    these constants it carries only the two account identifiers and the
    memo. *)
Theorem create_thor_transaction_constants (from_addr to_addr memo : str)
  (fb tb mb : bytes) (w : world)
  (Hfrom : thor_address_to_bytes from_addr = Ok fb)
  (Hto : thor_address_to_bytes to_addr = Ok tb)
  (Hmemo : encode_utf8 memo = Ok mb) :
  exists tx raw body auth any_msg msg_send signer_info fee,
    fst (create_thor_transaction from_addr to_addr memo w) = Ok tx
    /\ b64decode (ascii_bytes tx) = Some raw
    /\ parse_message raw
       = Some [(1, Len body); (2, Len auth); (3, Len (repeat x00 64))]
    /\ parse_message auth = Some [(1, Len signer_info); (2, Len fee)]
    /\ parse_message signer_info = Some [(3, Varint 0)]
    /\ parse_message fee = Some [(2, Varint 200000)]
    /\ parse_message body
       = Some [(1, Len any_msg); (2, Len mb); (3, Varint 0)]
    /\ parse_message any_msg
       = Some [(1, Len (ascii_bytes (py "/types.MsgSend")));
               (2, Len msg_send)]
    /\ parse_message msg_send = Some [(1, Len fb); (2, Len tb)].
Proof.
  pose proof (create_thor_transaction_returns _ _ _ _ _ _ w Hfrom Hto Hmemo)
    as Hrun.
  cbv zeta in Hrun.
  eexists. eexists. eexists. exists [x0a; x02; x18; x00; x12; x04; x10; xc0; x9a; x0c].
  eexists. eexists. exists [x18; x00], [x10; xc0; x9a; x0c].
  split; [exact Hrun|].
  split; [rewrite ascii_bytes_byte_val; apply b64decode_b64encode|].
  split; [apply parse_message_tx_raw|].
  split; [reflexivity|]. split; [reflexivity|]. split; [reflexivity|].
  split; [apply parse_message_tx_body_one|].
  split; [apply parse_message_two_fields|apply parse_message_two_fields].
Qed.

Lemma create_thor_transaction_constants_witness :
  let a := py "thor1a3eb9d2cbea51896c33209f2bb5ff979a44201a2" in
  let b := py "thor1000102030405060708090a0b0c0d0e0f10111213" in
  exists fb tb mb,
    thor_address_to_bytes a = Ok fb
    /\ thor_address_to_bytes b = Ok tb
    /\ encode_utf8 (py "TRADE+") = Ok mb
    /\ exists tx raw body auth,
         fst (create_thor_transaction a b (py "TRADE+") {| stdout := [] |})
         = Ok tx
         /\ b64decode (ascii_bytes tx) = Some raw
         /\ parse_message raw
            = Some [(1, Len body); (2, Len auth); (3, Len (repeat x00 64))].
Proof.
  intros a b.
  exists [xa3; xeb; x9d; x2c; xbe; xa5; x18; x96; xc3; x32;
          x09; xf2; xbb; x5f; xf9; x79; xa4; x42; x01; xa2].
  exists [x00; x01; x02; x03; x04; x05; x06; x07; x08; x09;
          x0a; x0b; x0c; x0d; x0e; x0f; x10; x11; x12; x13].
  exists [x54; x52; x41; x44; x45; x2b].
  assert (Ha : thor_address_to_bytes a
               = Ok [xa3; xeb; x9d; x2c; xbe; xa5; x18; x96; xc3; x32;
                     x09; xf2; xbb; x5f; xf9; x79; xa4; x42; x01; xa2])
    by reflexivity.
  assert (Hb : thor_address_to_bytes b
               = Ok [x00; x01; x02; x03; x04; x05; x06; x07; x08; x09;
                     x0a; x0b; x0c; x0d; x0e; x0f; x10; x11; x12; x13])
    by reflexivity.
  assert (Hm : encode_utf8 (py "TRADE+") = Ok [x54; x52; x41; x44; x45; x2b])
    by reflexivity.
  split; [exact Ha|]. split; [exact Hb|]. split; [exact Hm|].
  destruct (create_thor_transaction_constants a b (py "TRADE+") _ _ _
              {| stdout := [] |} Ha Hb Hm)
    as (tx & raw & body & auth & _ & _ & _ & _ & Hrun & Hdec & Hraw & _).
  exists tx, raw, body, auth. auto.
Defined.

(** C7. The first end-to-end scenario: both addresses
    [thor1a3eb9d2cbea51896c33209f2bb5ff979a44201a2], empty memo (sequence 0,
    gas limit 200000 and the single signature of 64 zero octets are what the
    source always uses). The call returns the base64 text shown; decoded,
    the raw transaction has a body with exactly one message, an any envelope
    whose type URL is [/types.MsgSend], and an auth info with exactly one
    signer info, of sequence 0, and a fee of gas limit 200000. *)
Theorem end_to_end_scenario_1 (w : world) :
  let a := py "thor1a3eb9d2cbea51896c33209f2bb5ff979a44201a2" in
  let account_id := [xa3; xeb; x9d; x2c; xbe; xa5; x18; x96; xc3; x32;
                     x09; xf2; xbb; x5f; xf9; x79; xa4; x42; x01; xa2] in
  exists raw body auth any_msg msg_send signer_info fee,
    fst (create_thor_transaction a a [] w)
    = Ok scenario_1_text
    /\ b64decode (ascii_bytes scenario_1_text) = Some raw
    /\ parse_message raw
       = Some [(1, Len body); (2, Len auth); (3, Len (repeat x00 64))]
    /\ parse_message body
       = Some [(1, Len any_msg); (2, Len []); (3, Varint 0)]
    /\ parse_message any_msg
       = Some [(1, Len (ascii_bytes (py "/types.MsgSend")));
               (2, Len msg_send)]
    /\ parse_message msg_send
       = Some [(1, Len account_id); (2, Len account_id)]
    /\ parse_message auth = Some [(1, Len signer_info); (2, Len fee)]
    /\ parse_message signer_info = Some [(3, Varint 0)]
    /\ parse_message fee = Some [(2, Varint 200000)].
Proof.
  intros a account_id.
  pose proof (create_thor_transaction_returns a a [] account_id account_id
                [] w eq_refl eq_refl eq_refl) as Hrun.
  cbv zeta in Hrun.
  set (msg_send := ld_field 0x0a account_id ++ ld_field 0x12 account_id)
    in Hrun.
  set (any_msg := ld_field 0x0a (utf8 (py "/types.MsgSend"))
                    ++ ld_field 0x12 msg_send) in Hrun.
  set (body := ld_field 0x0a any_msg ++ ld_field 0x12 [] ++ [x18; x00])
    in Hrun.
  set (auth := [x0a; x02; x18; x00; x12; x04; x10; xc0; x9a; x0c]) in Hrun.
  set (raw := ld_field 0x0a body ++ ld_field 0x12 auth
                ++ ld_field 0x1a (repeat x00 64)) in Hrun.
  exists raw, body, auth, any_msg, msg_send, [x18; x00],
    [x10; xc0; x9a; x0c].
  split; [rewrite Hrun; vm_compute; reflexivity|].
  split; [vm_compute; reflexivity|].
  split; [apply parse_message_tx_raw|].
  split; [apply parse_message_tx_body_one|].
  split; [apply parse_message_two_fields|].
  split; [apply parse_message_two_fields|].
  split; [reflexivity|]. split; reflexivity.
Qed.

(** A memo that has no UTF-8 encoding (a lone surrogate, say) makes
    [create_tx_body] raise, whatever the messages. *)
Lemma create_tx_body_unencodable_memo (messages : list bytes) (memo : str)
  (e : exn) :
  encode_utf8 memo = Raise e -> create_tx_body messages memo = Raise e.
Proof.
  intros He. unfold create_tx_body.
  rewrite append_fields_returns by lia. cbn [bind]. rewrite He. reflexivity.
Qed.

Example create_tx_body_lone_surrogate :
  create_tx_body [] [0xD800] = Raise UnicodeEncodeError.
Proof. reflexivity. Qed.

(* ===================================================================== *)
(** ** More on [encode_varint]                                            *)
(* ===================================================================== *)

Lemma bit_length_le (v n : Z) :
  0 <= v -> 0 <= n -> (bit_length v <= n <-> v < 2 ^ n).
Proof.
  intros Hv Hn. unfold bit_length.
  destruct (Z.eqb_spec v 0) as [->|Hnz].
  - pose proof (Z.pow_pos_nonneg 2 n). lia.
  - rewrite Z.abs_eq by lia.
    pose proof (Z.log2_lt_pow2 v n ltac:(lia)). lia.
Qed.

Lemma ceil_div_7_le (a k : Z) : ceil_div a 7 <= k <-> a <= 7 * k.
Proof. unfold ceil_div. Z.div_mod_to_equations. lia. Qed.

(** X1. How many octets a non-negative integer takes: at most [k] (for
    [k >= 1]) exactly when it is below [2^(7k)]. So a [uint64] never takes
    more than ten. *)
Theorem encode_varint_length_threshold (v k : Z)
  (Hv : 0 <= v) (Hk : 1 <= k) :
  exists bs, encode_varint v = Ok bs /\ (len bs <= k <-> v < 2 ^ (7 * k)).
Proof.
  exists (varint v). split; [apply encode_varint_returns|].
  rewrite varint_length by assumption.
  rewrite <- (bit_length_le v (7 * k)) by lia.
  rewrite <- ceil_div_7_le. lia.
Qed.

Lemma encode_varint_length_threshold_witness :
  (0 <= 2 ^ 64 - 1 /\ 1 <= 10)
  /\ exists bs,
       encode_varint (2 ^ 64 - 1) = Ok bs
       /\ (len bs <= 10 <-> 2 ^ 64 - 1 < 2 ^ (7 * 10)).
Proof.
  split; [lia|]. apply (encode_varint_length_threshold (2 ^ 64 - 1) 10); lia.
Defined.

(** X2. Encodings of non-negative integers are prefix-free: if the
    encoding of [a] followed by some octets equals the encoding of [b]
    followed by some octets, then [a = b] and what follows is the same. In
    particular [encode_varint] is injective on non-negative integers, and a
    stream of varints splits in one way only. *)
Theorem encode_varint_prefix_free (a b : Z) (x y r1 r2 : bytes)
  (Ha : 0 <= a) (Hb : 0 <= b)
  (Hx : encode_varint a = Ok x) (Hy : encode_varint b = Ok y)
  (Heq : x ++ r1 = y ++ r2) :
  a = b /\ x = y /\ r1 = r2.
Proof.
  rewrite encode_varint_returns in Hx, Hy.
  injection Hx as <-. injection Hy as <-.
  pose proof (decode_varint_varint a r1 Ha) as Da.
  pose proof (decode_varint_varint b r2 Hb) as Db.
  rewrite Heq, Db in Da. injection Da as -> ->. auto.
Qed.

Lemma encode_varint_prefix_free_witness :
  exists x y,
    encode_varint 300 = Ok x /\ encode_varint 300 = Ok y
    /\ x ++ [x01] = y ++ [x01]
    /\ (300 = 300 /\ x = y /\ [x01] = [x01]).
Proof.
  assert (Hx : encode_varint 300 = Ok [xac; x02]) by reflexivity.
  exists [xac; x02], [xac; x02].
  split; [exact Hx|]. split; [exact Hx|]. split; [reflexivity|].
  apply (encode_varint_prefix_free 300 300 [xac; x02] [xac; x02] [x01] [x01]);
    [lia|lia|exact Hx|exact Hx|reflexivity].
Defined.

(* ===================================================================== *)
(** ** More on [thor_address_to_bytes]                                    *)
(* ===================================================================== *)

(** What [fromhex] accepts is hexadecimal digits, two per octet, and
    whitespace. *)
Lemma fromhex_accepts (s : str) :
  forall bs,
    fromhex s = Ok bs ->
    List.length s
    = (2 * List.length bs + List.length (filter is_ascii_space s))%nat
    /\ Forall (fun c => is_ascii_space c = false -> is_hex_digit c = true) s.
Proof.
  pattern s. apply fromhex_ind; clear s.
  - intros bs H. injection H as <-. split; [reflexivity|constructor].
  - intros c rest Hc IH bs H. cbn [fromhex] in H. rewrite Hc in H.
    destruct (IH bs H) as [Hlen Hall]. cbn [filter]. rewrite Hc. split.
    + simpl. lia.
    + constructor; [congruence|assumption].
  - intros c Hc bs H. cbn [fromhex] in H. rewrite Hc in H.
    destruct (hex_digit_value c); discriminate.
  - intros c d rest Hc IH bs H. cbn [fromhex] in H. rewrite Hc in H.
    destruct (hex_digit_value c) as [top|] eqn:Htop; [|discriminate].
    destruct (hex_digit_value d) as [bot|] eqn:Hbot; [|discriminate].
    destruct (fromhex rest) as [bs'|e] eqn:Hrest; [|discriminate].
    cbn [bind] in H. injection H as <-.
    destruct (IH bs' eq_refl) as [Hlen Hall].
    assert (Hd : is_hex_digit d = true)
      by (unfold is_hex_digit; rewrite Hbot; reflexivity).
    assert (Hds : is_ascii_space d = false)
      by (apply hex_digit_not_space; assumption).
    cbn [filter]. rewrite Hc, Hds. split.
    + simpl. lia.
    + constructor.
      * intros _. unfold is_hex_digit. rewrite Htop. reflexivity.
      * constructor; [intros _; assumption|assumption].
Qed.

Lemma no_space_all_hex (s : str) :
  Forall (fun c => is_ascii_space c = false -> is_hex_digit c = true) s ->
  filter is_ascii_space s = [] ->
  forallb is_hex_digit s = true.
Proof.
  induction 1 as [|c s Hc _ IH]; intros Hf.
  - reflexivity.
  - cbn [filter] in Hf. destruct (is_ascii_space c) eqn:E; [discriminate|].
    cbn [forallb]. rewrite (Hc eq_refl), (IH Hf). reflexivity.
Qed.

Lemma thor_address_to_bytes_inv (a : str) (account_id : bytes) :
  thor_address_to_bytes a = Ok account_id ->
  startswith a (py "thor1") = true
  /\ len (slice_from 5 a) = 40
  /\ fromhex (slice_from 5 a) = Ok account_id.
Proof.
  unfold thor_address_to_bytes.
  destruct (startswith a (py "thor1")); [|discriminate]. cbn [negb].
  destruct (Z.eqb_spec (len (slice_from 5 a)) 40) as [Hl|]; [|discriminate].
  cbn [negb].
  destruct (fromhex (slice_from 5 a)) as [bs|e].
  - intros H. injection H as <-. auto.
  - destruct e as [m| | |]; discriminate.
Qed.

Lemma thor_address_to_bytes_length (a : str) (account_id : bytes) :
  thor_address_to_bytes a = Ok account_id ->
  len account_id <= 20 /\ (len account_id = 20 <-> well_formed_address a).
Proof.
  intros H. destruct (thor_address_to_bytes_inv _ _ H) as (Hp & Hl & Hhex).
  destruct (fromhex_accepts _ _ Hhex) as [Hlen Hall].
  unfold len in *. split; [lia|]. split.
  - intros H20. split; [assumption|]. split; [assumption|].
    apply no_space_all_hex; [assumption|].
    apply length_zero_iff_nil. lia.
  - intros Hwf. destruct (thor_address_to_bytes_well_formed a Hwf)
      as (id' & Hid & H20).
    rewrite H in Hid. injection Hid as <-. exact H20.
Qed.

(** X3. [thor_address_to_bytes] raises nothing but [ValueError], with one
    of its own three messages (the message of [bytes.fromhex] is replaced),
    and it never rejects a well-formed address. *)
Theorem thor_address_to_bytes_raises (a : str) (e : exn)
  (H : thor_address_to_bytes a = Raise e) :
  (e = ValueError InvalidAddressPrefix
   \/ e = ValueError InvalidAddressLength
   \/ e = ValueError InvalidHexData)
  /\ ~ well_formed_address a.
Proof.
  split.
  - unfold thor_address_to_bytes in H.
    destruct (startswith a (py "thor1")); cbn [negb] in H;
      [|injection H as <-; auto].
    destruct (len (slice_from 5 a) =? 40); cbn [negb] in H;
      [|injection H as <-; auto].
    destruct (fromhex (slice_from 5 a)) as [bs|e'] eqn:Hhex; [discriminate|].
    rewrite (fromhex_raises _ _ Hhex) in H. injection H as <-. auto.
  - intros Hwf. destruct (thor_address_to_bytes_well_formed a Hwf)
      as (id & Hid & _).
    congruence.
Qed.

Lemma thor_address_to_bytes_raises_witness :
  thor_address_to_bytes (py "thor1zz")
  = Raise (ValueError InvalidAddressLength)
  /\ ~ well_formed_address (py "thor1zz").
Proof.
  assert (H : thor_address_to_bytes (py "thor1zz")
              = Raise (ValueError InvalidAddressLength)) by reflexivity.
  split; [exact H|].
  exact (proj2 (thor_address_to_bytes_raises (py "thor1zz") _ H)).
Defined.

(** X4. An identifier that [thor_address_to_bytes] returns never has more
    than 20 octets, and it has exactly 20 precisely when the address is the
    prefix followed by forty hexadecimal digits: every other accepted
    address (one with whitespace in the remainder) gives a shorter one. *)
Theorem thor_address_to_bytes_twenty (a : str) (account_id : bytes)
  (H : thor_address_to_bytes a = Ok account_id) :
  len account_id <= 20 /\ (len account_id = 20 <-> well_formed_address a).
Proof. exact (thor_address_to_bytes_length a account_id H). Qed.

Lemma thor_address_to_bytes_twenty_witness :
  let a := py "thor1a3eb9d2cbea51896c33209f2bb5ff979a44201a2" in
  exists account_id,
    thor_address_to_bytes a = Ok account_id
    /\ len account_id <= 20
    /\ (len account_id = 20 <-> well_formed_address a).
Proof.
  intros a.
  exists [xa3; xeb; x9d; x2c; xbe; xa5; x18; x96; xc3; x32;
          x09; xf2; xbb; x5f; xf9; x79; xa4; x42; x01; xa2].
  assert (H : thor_address_to_bytes a
              = Ok [xa3; xeb; x9d; x2c; xbe; xa5; x18; x96; xc3; x32;
                    x09; xf2; xbb; x5f; xf9; x79; xa4; x42; x01; xa2])
    by reflexivity.
  split; [exact H|]. exact (thor_address_to_bytes_twenty a _ H).
Defined.

Lemma hex_char_digit (upper : bool) (n : Z) :
  0 <= n <= 15 ->
  hex_digit_value (Hex.hex_char upper n) = Some n
  /\ is_ascii_space (Hex.hex_char upper n) = false.
Proof.
  intros Hn.
  pose (good := fun k : nat =>
          let c := Hex.hex_char upper (Z.of_nat k) in
          match hex_digit_value c with
          | Some v => v =? Z.of_nat k
          | None => false
          end && negb (is_ascii_space c)).
  assert (Hall : forallb good (seq 0 16) = true)
    by (destruct upper; vm_compute; reflexivity).
  rewrite forallb_forall in Hall.
  assert (Hin : In (Z.to_nat n) (seq 0 16)) by (apply in_seq; lia).
  apply Hall in Hin. unfold good in Hin. cbv zeta in Hin.
  rewrite Z2Nat.id in Hin by lia.
  apply andb_prop in Hin as [Hv Hs].
  destruct (hex_digit_value (Hex.hex_char upper n)) as [v|]; [|discriminate].
  apply Z.eqb_eq in Hv. subst v.
  split; [reflexivity|].
  destruct (is_ascii_space (Hex.hex_char upper n)); [discriminate|reflexivity].
Qed.

Lemma nibbles (b : byte) :
  0 <= Z.shiftr (byte_val b) 4 <= 15
  /\ 0 <= Z.land (byte_val b) 15 <= 15
  /\ byte_of_Z (Z.lor (Z.shiftl (Z.shiftr (byte_val b) 4) 4)
                  (Z.land (byte_val b) 15)) = b.
Proof.
  pose proof (byte_val_range b) as Hb.
  change 15 with (Z.ones 4). rewrite Z.land_ones by lia.
  rewrite Z.shiftr_div_pow2 by lia. change (2 ^ 4) with 16.
  assert (H1 : 0 <= byte_val b / 16 <= Z.ones 4)
    by (change (Z.ones 4) with 15; Z.div_mod_to_equations; lia).
  assert (H2 : 0 <= byte_val b mod 16 <= Z.ones 4)
    by (change (Z.ones 4) with 15; Z.div_mod_to_equations; lia).
  split; [assumption|]. split; [assumption|].
  rewrite lor_shiftl_add
    by (change (2 ^ 4) with 16; change (Z.ones 4) with 15 in H2; lia).
  change (2 ^ 4) with 16.
  replace (byte_val b / 16 * 16 + byte_val b mod 16) with (byte_val b)
    by (Z.div_mod_to_equations; lia).
  apply byte_of_Z_val.
Qed.

Lemma fromhex_hexlify (upper : bool) (bs : bytes) :
  fromhex (Hex.hexlify upper bs) = Ok bs
  /\ List.length (Hex.hexlify upper bs) = (2 * List.length bs)%nat
  /\ forallb is_hex_digit (Hex.hexlify upper bs) = true.
Proof.
  induction bs as [|b bs (IH & IHlen & IHhex)].
  - repeat split.
  - destruct (nibbles b) as (Hhi & Hlo & Hb).
    destruct (hex_char_digit upper _ Hhi) as [Vhi Shi].
    destruct (hex_char_digit upper _ Hlo) as [Vlo Slo].
    unfold Hex.hexlify in *. cbn [flat_map app]. split; [|split].
    + cbn [fromhex]. rewrite Shi, Vhi, Vlo, IH. cbn [bind].
      rewrite Hb. reflexivity.
    + simpl. lia.
    + cbn [forallb]. unfold is_hex_digit at 1 2. rewrite Vhi, Vlo.
      exact IHhex.
Qed.

Lemma startswith_prefix (p s : str) : startswith (p ++ s) p = true.
Proof.
  induction p as [|c p IH]; [destruct s; reflexivity|].
  cbn [app startswith]. rewrite Z.eqb_refl, IH. reflexivity.
Qed.

Lemma slice_from_prefix (s : str) : slice_from 5 (py "thor1" ++ s) = s.
Proof. reflexivity. Qed.

(** X5. Every 20-octet account identifier has an address: the prefix
    followed by its forty hexadecimal digits, in lower or in upper case, is
    well formed and decodes to that identifier. *)
Theorem thor_address_of_account_id (upper : bool) (account_id : bytes)
  (H : len account_id = 20) :
  well_formed_address (py "thor1" ++ Hex.hexlify upper account_id)
  /\ thor_address_to_bytes (py "thor1" ++ Hex.hexlify upper account_id)
     = Ok account_id.
Proof.
  destruct (fromhex_hexlify upper account_id) as (Hhex & Hlen & Hdigits).
  assert (Hl : len (Hex.hexlify upper account_id) = 40)
    by (unfold len in *; lia).
  split.
  - split; [apply startswith_prefix|].
    rewrite slice_from_prefix. split; assumption.
  - unfold thor_address_to_bytes.
    rewrite startswith_prefix, slice_from_prefix.
    cbn [negb]. rewrite Hl, Hhex. reflexivity.
Qed.

Lemma thor_address_of_account_id_witness :
  let account_id := [xa3; xeb; x9d; x2c; xbe; xa5; x18; x96; xc3; x32;
                     x09; xf2; xbb; x5f; xf9; x79; xa4; x42; x01; xa2] in
  len account_id = 20
  /\ Hex.hexlify true account_id
     = py "A3EB9D2CBEA51896C33209F2BB5FF979A44201A2"
  /\ thor_address_to_bytes (py "thor1" ++ Hex.hexlify true account_id)
     = Ok account_id.
Proof.
  intros account_id.
  assert (H : len account_id = 20) by reflexivity.
  split; [exact H|]. split; [reflexivity|].
  exact (proj2 (thor_address_of_account_id true account_id H)).
Defined.

(* ===================================================================== *)
(** ** More on the composers                                              *)
(* ===================================================================== *)

(** X6. On two addresses that decode, [create_thor_msgsend] returns field
    1 with the sender's identifier and field 2 with the recipient's, each
    with a one-octet length, and nothing else (no amount field): the parser
    reads back exactly these two fields, and the message is four octets
    longer than the two identifiers. *)
Theorem create_thor_msgsend_layout (from_addr to_addr : str) (fb tb : bytes)
  (Hfrom : thor_address_to_bytes from_addr = Ok fb)
  (Hto : thor_address_to_bytes to_addr = Ok tb) :
  exists msg_send,
    create_thor_msgsend from_addr to_addr = Ok msg_send
    /\ msg_send = (x0a :: byte_of_Z (len fb) :: fb)
                  ++ (x12 :: byte_of_Z (len tb) :: tb)
    /\ parse_message msg_send = Some [(1, Len fb); (2, Len tb)]
    /\ len msg_send = 4 + len fb + len tb.
Proof.
  destruct (thor_address_to_bytes_length _ _ Hfrom) as [Lf _].
  destruct (thor_address_to_bytes_length _ _ Hto) as [Lt _].
  pose proof (len_nonneg fb). pose proof (len_nonneg tb).
  exists (ld_field 0x0a fb ++ ld_field 0x12 tb).
  split; [apply create_thor_msgsend_returns; assumption|].
  split; [|split; [apply parse_message_two_fields|]].
  - unfold ld_field. rewrite !varint_one_octet_value by lia. reflexivity.
  - unfold ld_field. rewrite !varint_one_octet_value by lia.
    rewrite len_app, !len_cons. cbn [app]. rewrite !len_cons. lia.
Qed.

Lemma create_thor_msgsend_layout_witness :
  let a := py "thor1a3eb9d2cbea51896c33209f2bb5ff979a44201a2" in
  let b := py "thor1000102030405060708090a0b0c0d0e0f101112  " in
  exists fb tb msg_send,
    thor_address_to_bytes a = Ok fb
    /\ thor_address_to_bytes b = Ok tb
    /\ create_thor_msgsend a b = Ok msg_send
    /\ parse_message msg_send = Some [(1, Len fb); (2, Len tb)]
    /\ len msg_send = 43.
Proof.
  intros a b.
  assert (Ha : thor_address_to_bytes a
               = Ok [xa3; xeb; x9d; x2c; xbe; xa5; x18; x96; xc3; x32;
                     x09; xf2; xbb; x5f; xf9; x79; xa4; x42; x01; xa2])
    by reflexivity.
  assert (Hb : thor_address_to_bytes b
               = Ok [x00; x01; x02; x03; x04; x05; x06; x07; x08; x09;
                     x0a; x0b; x0c; x0d; x0e; x0f; x10; x11; x12])
    by reflexivity.
  destruct (create_thor_msgsend_layout a b _ _ Ha Hb)
    as (msg_send & Hrun & _ & Hparse & Hlen).
  eexists. eexists. exists msg_send.
  split; [exact Ha|]. split; [exact Hb|]. split; [exact Hrun|].
  split; [exact Hparse|]. rewrite Hlen. reflexivity.
Defined.

(** X7. [create_thor_msgsend] raises exactly when one of the addresses
    does not decode, and the error is the sender's if the sender's address
    is at fault, whatever the recipient's address is. *)
Theorem create_thor_msgsend_raises (from_addr to_addr : str) (e : exn) :
  create_thor_msgsend from_addr to_addr = Raise e
  <-> thor_address_to_bytes from_addr = Raise e
      \/ (exists fb, thor_address_to_bytes from_addr = Ok fb
                     /\ thor_address_to_bytes to_addr = Raise e).
Proof.
  destruct (thor_address_to_bytes from_addr) as [fb|e1] eqn:Hf.
  - destruct (thor_address_to_bytes to_addr) as [tb|e2] eqn:Ht.
    + rewrite (create_thor_msgsend_returns _ _ _ _ Hf Ht). split.
      * discriminate.
      * intros [H|(fb' & _ & H)]; discriminate.
    + unfold create_thor_msgsend. rewrite Hf, Ht. cbn [bind]. split.
      * intros H. right. exists fb. auto.
      * intros [H|(fb' & _ & H)]; [discriminate|exact H].
  - unfold create_thor_msgsend. rewrite Hf. cbn [bind]. split.
    + intros H. left. exact H.
    + intros [H|(fb' & H & _)]; [exact H|discriminate].
Qed.

(** X8. On a type URL that UTF-8 can encode, [create_any_message] returns
    an envelope from which the parser reads back exactly two fields: the
    octets of the type URL and the message octets, unchanged (an empty
    message included). *)
Theorem create_any_message_round_trip (type_url : str) (u m : bytes)
  (Hu : encode_utf8 type_url = Ok u) :
  exists any_msg,
    create_any_message type_url m = Ok any_msg
    /\ parse_message any_msg = Some [(1, Len u); (2, Len m)].
Proof.
  exists (ld_field 0x0a u ++ ld_field 0x12 m).
  split; [apply create_any_message_returns; assumption|].
  apply parse_message_two_fields.
Qed.

Lemma create_any_message_round_trip_witness :
  encode_utf8 (py "/types.MsgSend")
  = Ok (ascii_bytes (py "/types.MsgSend"))
  /\ exists any_msg,
       create_any_message (py "/types.MsgSend") [] = Ok any_msg
       /\ parse_message any_msg
          = Some [(1, Len (ascii_bytes (py "/types.MsgSend"))); (2, Len [])].
Proof.
  assert (H : encode_utf8 (py "/types.MsgSend")
              = Ok (ascii_bytes (py "/types.MsgSend"))) by reflexivity.
  split; [exact H|].
  exact (create_any_message_round_trip (py "/types.MsgSend") _ [] H).
Defined.

Lemma parse_message_varint_field (tag v : Z) :
  0 <= tag <= 127 -> Z.land tag 7 = 0 -> 0 < Z.shiftr tag 3 -> 0 <= v ->
  parse_message (byte_of_Z tag :: varint v) = Some [(Z.shiftr tag 3, Varint v)].
Proof.
  intros Ht Hw Hn Hv. rewrite <- (app_nil_r (varint v)).
  apply (parse_message_cons _ _ _ _ (parse_field_varint tag v [] Ht Hw Hn Hv)).
  reflexivity.
Qed.

Lemma decode_varint64_from_varint (v : Z) :
  0 <= v ->
  forall octets_left shift acc rest,
    len (varint v) <= Z.of_nat octets_left ->
    0 <= shift ->
    Z.lor acc (Z.shiftl v shift) < 2 ^ 64 ->
    decode_varint64_from octets_left shift acc (varint v ++ rest)
    = Some (Z.lor acc (Z.shiftl v shift), rest).
Proof.
  revert v.
  apply (varint_ind (fun v bs =>
           forall octets_left shift acc rest,
             len bs <= Z.of_nat octets_left ->
             0 <= shift ->
             Z.lor acc (Z.shiftl v shift) < 2 ^ 64 ->
             decode_varint64_from octets_left shift acc (bs ++ rest)
             = Some (Z.lor acc (Z.shiftl v shift), rest))).
  - intros v Hv [|n] shift acc rest Hlen Hs Hfit.
    + rewrite len_cons in Hlen. pose proof (len_nonneg (@nil byte)). lia.
    + cbn [app decode_varint64_from]. rewrite flag_clear, low7_of_last.
      rewrite low7_mod, Z.mod_small by lia.
      destruct (Z.ltb_spec (Z.lor acc (Z.shiftl v shift)) (2 ^ 64)); [|lia].
      reflexivity.
  - intros v Hv IH [|n] shift acc rest Hlen Hs Hfit.
    + rewrite len_cons in Hlen. pose proof (len_nonneg (varint (Z.shiftr v 7))).
      lia.
    + assert (Hsame :
        Z.lor (Z.lor acc (Z.shiftl (Z.land v 0x7F) shift))
          (Z.shiftl (Z.shiftr v 7) (shift + 7))
        = Z.lor acc (Z.shiftl v shift)).
      { rewrite <- Z.lor_assoc.
        replace (shift + 7) with (7 + shift) by lia.
        rewrite <- Z.shiftl_shiftl by lia. rewrite <- Z.shiftl_lor.
        rewrite low7_recompose. reflexivity. }
      cbn [app decode_varint64_from]. rewrite flag_set, low7_of_flagged.
      rewrite IH.
      * rewrite Hsame. reflexivity.
      * rewrite len_cons in Hlen. lia.
      * lia.
      * rewrite Hsame. exact Hfit.
Qed.

(** Below [2^64] the bounded reader and the unbounded one agree on what
    [encode_varint] returns. *)
Lemma decode_varint64_varint (v : Z) (rest : bytes) :
  0 <= v < 2 ^ 64 -> decode_varint64 (varint v ++ rest) = Some (v, rest).
Proof.
  intros Hv. unfold decode_varint64.
  rewrite decode_varint64_from_varint.
  - rewrite Z.shiftl_0_r, Z.lor_0_l. reflexivity.
  - lia.
  - rewrite varint_length by lia.
    assert (Hb : bit_length v <= 7 * 10)
      by (apply bit_length_le; [lia|lia|simpl; lia]).
    apply ceil_div_7_le in Hb. change (Z.of_nat 10) with 10. lia.
  - lia.
  - rewrite Z.shiftl_0_r, Z.lor_0_l. lia.
Qed.

(** X9. For every sequence number and gas limit in the [uint64] range
    [0, 2^64), [create_auth_info] returns an auth info from which the parser
    reads back one signer info, whose only field is field 3 with exactly
    that sequence number (no public key, no mode info), and one fee, whose
    only field is field 2 with exactly that gas limit (no amount); both
    numbers take at most ten octets and are read back by the 64-bit varint
    reader as well. *)
Theorem create_auth_info_round_trip (sequence gas_limit : Z)
  (Hs : 0 <= sequence < 2 ^ 64) (Hg : 0 <= gas_limit < 2 ^ 64) :
  exists auth_info signer_info fee s g,
    create_auth_info sequence gas_limit = Ok auth_info
    /\ parse_message auth_info = Some [(1, Len signer_info); (2, Len fee)]
    /\ parse_message signer_info = Some [(3, Varint sequence)]
    /\ parse_message fee = Some [(2, Varint gas_limit)]
    /\ signer_info = x18 :: s
    /\ fee = x10 :: g
    /\ decode_varint64 s = Some (sequence, [])
    /\ decode_varint64 g = Some (gas_limit, []).
Proof.
  exists (ld_field 0x0a (x18 :: varint sequence)
            ++ ld_field 0x12 (x10 :: varint gas_limit)).
  exists (x18 :: varint sequence), (x10 :: varint gas_limit).
  exists (varint sequence), (varint gas_limit).
  split; [apply create_auth_info_returns|].
  split; [apply parse_message_two_fields|].
  split.
  { apply (parse_message_varint_field 0x18 sequence
             ltac:(lia) eq_refl eq_refl (proj1 Hs)). }
  split.
  { apply (parse_message_varint_field 0x10 gas_limit
             ltac:(lia) eq_refl eq_refl (proj1 Hg)). }
  split; [reflexivity|]. split; [reflexivity|].
  split.
  - rewrite <- (app_nil_r (varint sequence)).
    apply decode_varint64_varint. exact Hs.
  - rewrite <- (app_nil_r (varint gas_limit)).
    apply decode_varint64_varint. exact Hg.
Qed.

Lemma create_auth_info_round_trip_witness :
  (0 <= 7 < 2 ^ 64 /\ 0 <= 2 ^ 64 - 1 < 2 ^ 64)
  /\ exists auth_info signer_info fee s g,
       create_auth_info 7 (2 ^ 64 - 1) = Ok auth_info
       /\ parse_message auth_info = Some [(1, Len signer_info); (2, Len fee)]
       /\ parse_message signer_info = Some [(3, Varint 7)]
       /\ parse_message fee = Some [(2, Varint (2 ^ 64 - 1))]
       /\ signer_info = x18 :: s
       /\ fee = x10 :: g
       /\ decode_varint64 s = Some (7, [])
       /\ decode_varint64 g = Some (2 ^ 64 - 1, []).
Proof.
  split; [lia|]. apply (create_auth_info_round_trip 7 (2 ^ 64 - 1)); lia.
Defined.

(** The bounded reader refuses what does not fit 64 bits. *)
Example decode_varint64_refuses_2_64 :
  encode_varint (2 ^ 64)
  = Ok [x80; x80; x80; x80; x80; x80; x80; x80; x80; x02]
  /\ decode_varint64 [x80; x80; x80; x80; x80; x80; x80; x80; x80; x02]
     = None.
Proof. split; reflexivity. Qed.

(** X10. A negative sequence number is not rejected: [create_auth_info]
    returns all the same, and the signer info it emits carries
    [sequence & 0x7F], a number in [0, 127] and not the sequence given. *)
Theorem create_auth_info_negative_sequence (sequence gas_limit : Z)
  (Hs : sequence < 0) :
  exists auth_info signer_info fee,
    create_auth_info sequence gas_limit = Ok auth_info
    /\ parse_message auth_info = Some [(1, Len signer_info); (2, Len fee)]
    /\ parse_message signer_info
       = Some [(3, Varint (Z.land sequence 0x7F))]
    /\ 0 <= Z.land sequence 0x7F <= 127.
Proof.
  pose proof (low7_range sequence) as Hr.
  exists (ld_field 0x0a (x18 :: varint sequence)
            ++ ld_field 0x12 (x10 :: varint gas_limit)).
  exists (x18 :: varint sequence), (x10 :: varint gas_limit).
  split; [apply create_auth_info_returns|].
  split; [apply parse_message_two_fields|]. split; [|exact Hr].
  rewrite varint_small by lia.
  rewrite <- (varint_one_octet_value (Z.land sequence 0x7F)) by lia.
  apply (parse_message_varint_field 0x18 _ ltac:(lia) eq_refl eq_refl).
  lia.
Qed.

Lemma create_auth_info_negative_sequence_witness :
  -1 < 0
  /\ exists auth_info signer_info fee,
       create_auth_info (-1) 200000 = Ok auth_info
       /\ parse_message auth_info = Some [(1, Len signer_info); (2, Len fee)]
       /\ parse_message signer_info = Some [(3, Varint 127)].
Proof.
  split; [lia|].
  destruct (create_auth_info_negative_sequence (-1) 200000 ltac:(lia))
    as (auth_info & signer_info & fee & H1 & H2 & H3 & _).
  exists auth_info, signer_info, fee. auto.
Defined.

Lemma parse_message_tx_raw_fields (tx_body auth_info : bytes)
  (signatures : list bytes) :
  parse_message (ld_field 0x0a tx_body ++ ld_field 0x12 auth_info
                   ++ List.concat (map (ld_field 0x1a) signatures))
  = Some ((1, Len tx_body) :: (2, Len auth_info)
          :: map (fun sg => (3, Len sg)) signatures).
Proof.
  apply (parse_message_cons _ _ _ _
           (parse_field_length_delimited 0x0a tx_body _
              ltac:(lia) eq_refl eq_refl)).
  apply (parse_message_cons _ _ _ _
           (parse_field_length_delimited 0x12 auth_info _
              ltac:(lia) eq_refl eq_refl)).
  rewrite <- (app_nil_r (List.concat _)).
  rewrite (parse_message_repeated 0x1a signatures [] []
             ltac:(lia) eq_refl eq_refl parse_message_nil).
  rewrite app_nil_r. reflexivity.
Qed.

Lemma map_len_field_inj (n : Z) (l1 l2 : list bytes) :
  map (fun p => (n, Len p)) l1 = map (fun p => (n, Len p)) l2 -> l1 = l2.
Proof.
  revert l2. induction l1 as [|a l1 IH]; intros [|b l2] H;
    try discriminate; [reflexivity|].
  cbn [map] in H. injection H as Hab Hl.
  rewrite Hab, (IH _ Hl). reflexivity.
Qed.

(** X11. [create_tx_raw] is injective: two calls that return the same
    octets were given the same body, the same auth info and the same
    signatures in the same order. No boundary between the parts is ever
    ambiguous. *)
Theorem create_tx_raw_injective (tx_body auth_info tx_body' auth_info' : bytes)
  (signatures signatures' : list bytes)
  (H : create_tx_raw tx_body auth_info signatures
       = create_tx_raw tx_body' auth_info' signatures') :
  tx_body = tx_body' /\ auth_info = auth_info' /\ signatures = signatures'.
Proof.
  rewrite !create_tx_raw_returns in H.
  apply (f_equal (fun r => match r with
                           | Ok raw => parse_message raw
                           | Raise _ => None
                           end)) in H.
  cbv beta iota in H. rewrite !parse_message_tx_raw_fields in H.
  injection H as Hb Ha Hs.
  apply map_len_field_inj in Hs. auto.
Qed.

Lemma create_tx_raw_injective_witness :
  create_tx_raw [x01] [x02] [[x03]; []] = create_tx_raw [x01] [x02] [[x03]; []]
  /\ ([x01] = [x01] /\ [x02] = [x02] /\ [[x03]; []] = [[x03]; @nil byte]).
Proof.
  split; [reflexivity|].
  apply (create_tx_raw_injective [x01] [x02] [x01] [x02] [[x03]; []]
           [[x03]; []]).
  reflexivity.
Defined.

Lemma utf8_char_raises (c : Z) (e : exn) :
  utf8_char c = Raise e -> e = UnicodeEncodeError.
Proof.
  unfold utf8_char.
  repeat match goal with
         | |- context [if ?b then _ else _] => destruct b
         end; intros H; try discriminate; injection H as <-; reflexivity.
Qed.

Lemma encode_utf8_raises (s : str) (e : exn) :
  encode_utf8 s = Raise e -> e = UnicodeEncodeError.
Proof.
  induction s as [|c s IH]; [discriminate|].
  cbn [encode_utf8].
  destruct (utf8_char c) as [cb|e1] eqn:Hc; cbn [bind].
  - destruct (encode_utf8 s) as [bs|e2]; cbn [bind]; [discriminate|].
    intros H. injection H as <-. apply IH. reflexivity.
  - intros H. injection H as <-. apply (utf8_char_raises _ _ Hc).
Qed.

(** X12. [create_tx_body] returns exactly when the memo has a UTF-8
    encoding, whatever the messages; otherwise (a memo with a lone
    surrogate) it raises [UnicodeEncodeError] and nothing else. *)
Theorem create_tx_body_returns_iff (messages : list bytes) (memo : str) :
  ((exists body, create_tx_body messages memo = Ok body) <-> encodable memo)
  /\ (forall e,
        create_tx_body messages memo = Raise e ->
        e = UnicodeEncodeError /\ ~ encodable memo).
Proof.
  destruct (encode_utf8 memo) as [mb|e0] eqn:Hm.
  - rewrite (create_tx_body_returns _ _ _ Hm). split.
    + split; [intros _; exists mb; exact Hm|intros _; eexists; reflexivity].
    + discriminate.
  - rewrite (create_tx_body_unencodable_memo _ _ _ Hm). split.
    + split; [intros [body H]; discriminate|].
      intros [mb H]. congruence.
    + intros e H. injection H as <-. split.
      * apply (encode_utf8_raises _ _ Hm).
      * intros [mb H]. congruence.
Qed.

(* ===================================================================== *)
(** ** More on [create_thor_transaction]                                  *)
(* ===================================================================== *)

Lemma io_bind_ok_inv {A B : Type} (m : IO A) (k : A -> IO B) (w : world)
  (b : B) :
  fst (io_bind m k w) = Ok b ->
  exists a w', m w = (Ok a, w') /\ fst (k a w') = Ok b.
Proof.
  unfold io_bind. destruct (m w) as [[a|e] w'].
  - intros H. exists a, w'. auto.
  - discriminate.
Qed.

Lemma lift_ok_inv {A : Type} (r : result A) (w w' : world) (a : A) :
  lift r w = (Ok a, w') -> r = Ok a.
Proof. unfold lift. intros H. injection H as H _. exact H. Qed.

Lemma run_lift_raise {A B : Type} (e : exn) (k : A -> IO B) (w : world) :
  io_bind (lift (Raise e)) k w = (Raise e, w).
Proof. reflexivity. Qed.

Ltac invert_bind H a w' Hstep :=
  apply io_bind_ok_inv in H; destruct H as (a & w' & Hstep & H).

(** X13. [create_thor_transaction] returns a transaction exactly when both
    addresses decode and the memo has a UTF-8 encoding: it never returns one
    built from an address that [thor_address_to_bytes] rejects. *)
Theorem create_thor_transaction_returns_iff (from_addr to_addr memo : str)
  (w : world) :
  (exists tx, fst (create_thor_transaction from_addr to_addr memo w) = Ok tx)
  <-> (exists fb tb mb,
         thor_address_to_bytes from_addr = Ok fb
         /\ thor_address_to_bytes to_addr = Ok tb
         /\ encode_utf8 memo = Ok mb).
Proof.
  split.
  - intros [tx H]. unfold create_thor_transaction in H.
    invert_bind H u1 w1 P1. invert_bind H u2 w2 P2.
    invert_bind H u3 w3 P3. invert_bind H u4 w4 P4.
    invert_bind H msg_send w5 Hmsg. apply lift_ok_inv in Hmsg.
    invert_bind H u6 w6 P6.
    invert_bind H any_msg w7 Hany.
    invert_bind H u8 w8 P8.
    invert_bind H tx_body w9 Hbody. apply lift_ok_inv in Hbody.
    destruct (thor_address_to_bytes from_addr) as [fb|e1] eqn:Hf.
    + destruct (thor_address_to_bytes to_addr) as [tb|e2] eqn:Ht.
      * destruct (encode_utf8 memo) as [mb|e3] eqn:Hm.
        -- exists fb, tb, mb. auto.
        -- rewrite (create_tx_body_unencodable_memo _ _ _ Hm) in Hbody.
           discriminate.
      * unfold create_thor_msgsend in Hmsg. rewrite Hf, Ht in Hmsg.
        discriminate.
    + unfold create_thor_msgsend in Hmsg. rewrite Hf in Hmsg. discriminate.
  - intros (fb & tb & mb & Hf & Ht & Hm). eexists.
    apply (create_thor_transaction_returns _ _ _ _ _ _ w Hf Ht Hm).
Qed.

(** X14. When an address is rejected (and the three arguments can be
    printed), [create_thor_transaction] raises the error of
    [create_thor_msgsend] after printing its four opening lines and nothing
    more: no later stage runs. *)
Theorem create_thor_transaction_rejected (from_addr to_addr memo : str)
  (e : exn) (w : world)
  (Hfrom : encodable from_addr) (Hto : encodable to_addr)
  (Hmemo : encodable memo)
  (Hmsg : create_thor_msgsend from_addr to_addr = Raise e) :
  create_thor_transaction from_addr to_addr memo w
  = (Raise e,
     {| stdout := stdout w
                    ++ [wrench ++ py " Creating THORChain transaction";
                        py "   From: " ++ from_addr;
                        py "   To: " ++ to_addr;
                        py "   Memo: " ++ memo] |}).
Proof.
  unfold create_thor_transaction.
  do 4 (rewrite run_print by encodable_line).
  rewrite Hmsg, run_lift_raise. cbn [stdout].
  rewrite <- !app_assoc. reflexivity.
Qed.

Lemma create_thor_transaction_rejected_witness :
  let a := py "cosm1a3eb9d2cbea51896c33209f2bb5ff979a44201a2" in
  let b := py "thor1a3eb9d2cbea51896c33209f2bb5ff979a44201a2" in
  create_thor_msgsend a b = Raise (ValueError InvalidAddressPrefix)
  /\ create_thor_transaction a b [] {| stdout := [] |}
     = (Raise (ValueError InvalidAddressPrefix),
        {| stdout := [wrench ++ py " Creating THORChain transaction";
                      py "   From: " ++ a; py "   To: " ++ b;
                      py "   Memo: "] |}).
Proof.
  intros a b.
  assert (H : create_thor_msgsend a b = Raise (ValueError InvalidAddressPrefix))
    by reflexivity.
  split; [exact H|].
  apply (create_thor_transaction_rejected a b [] _ {| stdout := [] |}
           (encodable_py _) (encodable_py _) (encodable_py EmptyString) H).
Defined.

Lemma two_fields_inj (p1 p2 q1 q2 : bytes) :
  ld_field 0x0a p1 ++ ld_field 0x12 p2 = ld_field 0x0a q1 ++ ld_field 0x12 q2 ->
  p1 = q1 /\ p2 = q2.
Proof.
  intros H. apply (f_equal parse_message) in H.
  rewrite !parse_message_two_fields in H. injection H as H1 H2. auto.
Qed.

Lemma tx_body_one_inj (m1 b1 m2 b2 : bytes) :
  ld_field 0x0a m1 ++ ld_field 0x12 b1 ++ [x18; x00]
  = ld_field 0x0a m2 ++ ld_field 0x12 b2 ++ [x18; x00] ->
  m1 = m2 /\ b1 = b2.
Proof.
  intros H. apply (f_equal parse_message) in H.
  rewrite !parse_message_tx_body_one in H. injection H as H1 H2. auto.
Qed.

Lemma tx_raw_one_inj (b1 a1 s1 b2 a2 s2 : bytes) :
  ld_field 0x0a b1 ++ ld_field 0x12 a1 ++ ld_field 0x1a s1
  = ld_field 0x0a b2 ++ ld_field 0x12 a2 ++ ld_field 0x1a s2 ->
  b1 = b2 /\ a1 = a2 /\ s1 = s2.
Proof.
  intros H. apply (f_equal parse_message) in H.
  rewrite !parse_message_tx_raw in H. injection H as H1 H2 H3. auto.
Qed.

Lemma base64_text_inj (r1 r2 : bytes) :
  map byte_val (b64encode r1) = map byte_val (b64encode r2) -> r1 = r2.
Proof.
  intros H. apply (f_equal ascii_bytes) in H.
  rewrite !ascii_bytes_byte_val in H. apply (f_equal b64decode) in H.
  rewrite !b64decode_b64encode in H. injection H as H. exact H.
Qed.

(** X15. Different intents give different transactions: if two calls of
    [create_thor_transaction] return the same text, then the sender's
    identifiers are the same, the recipient's identifiers are the same, and
    the memos have the same UTF-8 octets. *)
Theorem create_thor_transaction_injective
  (from_addr to_addr memo from_addr' to_addr' memo' : str)
  (fb tb mb fb' tb' mb' : bytes) (w w' : world)
  (Hfrom : thor_address_to_bytes from_addr = Ok fb)
  (Hto : thor_address_to_bytes to_addr = Ok tb)
  (Hmemo : encode_utf8 memo = Ok mb)
  (Hfrom' : thor_address_to_bytes from_addr' = Ok fb')
  (Hto' : thor_address_to_bytes to_addr' = Ok tb')
  (Hmemo' : encode_utf8 memo' = Ok mb')
  (Hsame : fst (create_thor_transaction from_addr to_addr memo w)
           = fst (create_thor_transaction from_addr' to_addr' memo' w')) :
  fb = fb' /\ tb = tb' /\ mb = mb'.
Proof.
  rewrite (create_thor_transaction_returns _ _ _ _ _ _ w Hfrom Hto Hmemo)
    in Hsame.
  rewrite (create_thor_transaction_returns _ _ _ _ _ _ w' Hfrom' Hto' Hmemo')
    in Hsame.
  assert (Htext : forall t1 t2 : str, Ok t1 = Ok t2 -> t1 = t2)
    by (intros t1 t2 E; injection E as E; exact E).
  apply Htext, base64_text_inj in Hsame.
  apply tx_raw_one_inj in Hsame. destruct Hsame as (Hbody & _ & _).
  apply tx_body_one_inj in Hbody. destruct Hbody as (Hany & Hmb).
  apply two_fields_inj in Hany. destruct Hany as (_ & Hmsg).
  apply two_fields_inj in Hmsg. destruct Hmsg as (Hfb & Htb). auto.
Qed.

Lemma create_thor_transaction_injective_witness :
  let a := py "thor1a3eb9d2cbea51896c33209f2bb5ff979a44201a2" in
  let A := py "thor1A3EB9D2CBEA51896C33209F2BB5FF979A44201A2" in
  exists fb fb' mb,
    thor_address_to_bytes a = Ok fb
    /\ thor_address_to_bytes A = Ok fb'
    /\ encode_utf8 (py "memo") = Ok mb
    /\ fst (create_thor_transaction a a (py "memo") {| stdout := [] |})
       = fst (create_thor_transaction A A (py "memo") {| stdout := [] |})
    /\ fb = fb'.
Proof.
  intros a A.
  assert (Ha : thor_address_to_bytes a
               = Ok [xa3; xeb; x9d; x2c; xbe; xa5; x18; x96; xc3; x32;
                     x09; xf2; xbb; x5f; xf9; x79; xa4; x42; x01; xa2])
    by reflexivity.
  assert (HA : thor_address_to_bytes A
               = Ok [xa3; xeb; x9d; x2c; xbe; xa5; x18; x96; xc3; x32;
                     x09; xf2; xbb; x5f; xf9; x79; xa4; x42; x01; xa2])
    by reflexivity.
  assert (Hm : encode_utf8 (py "memo") = Ok [x6d; x65; x6d; x6f])
    by reflexivity.
  assert (Hsame :
            fst (create_thor_transaction a a (py "memo") {| stdout := [] |})
            = fst (create_thor_transaction A A (py "memo") {| stdout := [] |}))
    by (vm_compute; reflexivity).
  eexists. eexists. eexists.
  split; [exact Ha|]. split; [exact HA|]. split; [exact Hm|].
  split; [exact Hsame|].
  exact (proj1 (create_thor_transaction_injective a a (py "memo") A A
                  (py "memo") _ _ _ _ _ _ _ _ Ha Ha Hm HA HA Hm Hsame)).
Defined.

(* ===================================================================== *)
(** ** [broadcast_transaction]                                            *)
(* ===================================================================== *)

Section BroadcastProperties.

Variables json exception : Type.
Variable dict_of : list (str * str) -> json.
Variable exception_str : exception -> str.
Variable post :
  Rpc.post_call -> list Rpc.post_call
  -> exception + Rpc.response json exception.


End BroadcastProperties.


(* ===================================================================== *)
(** ** Instances                                                          *)
(* ===================================================================== *)

Lemma create_thor_msgsend_raises_witness :
  let a := py "thor1a3eb9d2cbea51896c33209f2bb5ff979a44201a2" in
  thor_address_to_bytes a
  = Ok [xa3; xeb; x9d; x2c; xbe; xa5; x18; x96; xc3; x32;
        x09; xf2; xbb; x5f; xf9; x79; xa4; x42; x01; xa2]
  /\ thor_address_to_bytes (py "thor1xyz")
     = Raise (ValueError InvalidAddressLength)
  /\ create_thor_msgsend a (py "thor1xyz")
     = Raise (ValueError InvalidAddressLength).
Proof.
  intros a.
  assert (Ha : thor_address_to_bytes a
               = Ok [xa3; xeb; x9d; x2c; xbe; xa5; x18; x96; xc3; x32;
                     x09; xf2; xbb; x5f; xf9; x79; xa4; x42; x01; xa2])
    by reflexivity.
  assert (Hb : thor_address_to_bytes (py "thor1xyz")
               = Raise (ValueError InvalidAddressLength)) by reflexivity.
  split; [exact Ha|]. split; [exact Hb|].
  apply (proj2 (create_thor_msgsend_raises a (py "thor1xyz") _)).
  right. eexists. split; [exact Ha|exact Hb].
Defined.

Lemma create_tx_body_returns_iff_witness :
  encodable [0x20AC]
  /\ exists body, create_tx_body [[x01]] [0x20AC] = Ok body.
Proof.
  assert (H : encodable [0x20AC]) by (exists [xe2; x82; xac]; reflexivity).
  split; [exact H|].
  exact (proj2 (proj1 (create_tx_body_returns_iff [[x01]] [0x20AC])) H).
Defined.

Lemma create_thor_transaction_returns_iff_witness :
  let a := py "thor1a3eb9d2cbea51896c33209f2bb5ff979a44201a2" in
  exists tx,
    fst (create_thor_transaction a a (py "hello") {| stdout := [] |}) = Ok tx.
Proof.
  intros a.
  apply (proj2 (create_thor_transaction_returns_iff a a (py "hello")
                  {| stdout := [] |})).
  eexists. eexists. eexists.
  split; [reflexivity|]. split; reflexivity.
Defined.
